(** * uplexa-python: key derivation, mnemonic seeds, sub-addresses, amounts

    A shallow embedding of [uplexa/seed.py] and [uplexa/wallet.py], together
    with the library functions they call, and the properties of the
    derivation chain stated in the specification of the repository. *)

From Stdlib Require Import ZArith List Bool Arith Lia.
From Stdlib.Strings Require Import Ascii String Byte.
From Stdlib Require Import DecimalString.
Import ListNotations.

Local Open Scope Z_scope.

(** ** Exceptions and the result monad

    Python exceptions are values of [exn]; a call that may raise returns
    [res A].  [ValueError] carries the message of the [raise] statement. *)

Inductive exn : Type :=
| ValueError (msg : string)
| BinasciiError
| IndexError
| InvalidPhrase
| PointError.

Inductive res (A : Type) : Type :=
| Ok (a : A)
| Err (e : exn).

Arguments Ok {A} a.
Arguments Err {A} e.

Definition bind {A B : Type} (m : res A) (f : A -> res B) : res B :=
  match m with
  | Ok a => f a
  | Err e => Err e
  end.

Definition fmap {A B : Type} (f : A -> B) (m : res A) : res B :=
  bind m (fun a => Ok (f a)).

Notation "x <- m ;; k" := (bind m (fun x => k))
  (at level 61, m at next level, right associativity).

Definition is_ok {A : Type} (m : res A) : bool :=
  match m with Ok _ => true | Err _ => false end.

(** ** Bytes and integers *)

Abbreviation bytes := (list byte).

Definition byte_to_Z (b : byte) : Z := Z.of_N (Byte.to_N b).

Definition byte_of_Z (z : Z) : byte :=
  match Byte.of_N (Z.to_N (z mod 256)) with
  | Some b => b
  | None => x00
  end.

(** Little-endian value of a byte string, [int.from_bytes(s, 'little')]. *)
Fixpoint le_int (s : bytes) : Z :=
  match s with
  | [] => 0
  | b :: r => byte_to_Z b + 256 * le_int r
  end.

(** The [n] low bytes of [z], least significant first. *)
Fixpoint le_bytes (n : nat) (z : Z) : bytes :=
  match n with
  | O => []
  | S k => byte_of_Z z :: le_bytes k (z / 256)
  end.

(** [struct.pack('<I', v)] for [v] already checked to be in uint32 range. *)
Definition pack_u32_le (v : Z) : bytes := le_bytes 4 v.

(** Cuts a list into consecutive pieces of [n] elements; the last piece may
    be shorter. *)
Fixpoint chunks_fuel {A : Type} (fuel n : nat) (l : list A) : list (list A) :=
  match fuel with
  | O => []
  | S f =>
      match l with
      | [] => []
      | _ => firstn n l :: chunks_fuel f n (skipn n l)
      end
  end.

Definition chunks {A : Type} (n : nat) (l : list A) : list (list A) :=
  chunks_fuel (List.length l) n l.

(** ** binascii.hexlify / binascii.unhexlify *)

Definition hex_digit (n : Z) : ascii :=
  nth (Z.to_nat n)
      ["0"; "1"; "2"; "3"; "4"; "5"; "6"; "7";
       "8"; "9"; "a"; "b"; "c"; "d"; "e"; "f"]%char "0"%char.

Definition hex_value (c : ascii) : option Z :=
  let n := Z.of_nat (nat_of_ascii c) in
  if (48 <=? n) && (n <=? 57) then Some (n - 48)
  else if (97 <=? n) && (n <=? 102) then Some (n - 87)
  else if (65 <=? n) && (n <=? 70) then Some (n - 55)
  else None.

Fixpoint hexlify (s : bytes) : string :=
  match s with
  | [] => EmptyString
  | b :: r =>
      String (hex_digit (byte_to_Z b / 16))
        (String (hex_digit (byte_to_Z b mod 16)) (hexlify r))
  end.

(** Odd length or a character that is no hexadecimal digit raises
    [binascii.Error]. *)
Fixpoint unhexlify (h : string) : res bytes :=
  match h with
  | EmptyString => Ok []
  | String _ EmptyString => Err BinasciiError
  | String c1 (String c2 r) =>
      match hex_value c1, hex_value c2 with
      | Some hi, Some lo =>
          t <- unhexlify r ;; Ok (byte_of_Z (16 * hi + lo) :: t)
      | _, _ => Err BinasciiError
      end
  end.

(** ** sha3.keccak_256

    The original Keccak with rate 1088 bits, capacity 512 bits and the
    [0x01] domain byte, on a state of 25 lanes of 64 bits stored at index
    [x + 5 * y]. *)

Module Keccak.

Definition mask64 : Z := 2 ^ 64 - 1.

Definition rotl64 (v : Z) (n : Z) : Z :=
  Z.land (Z.lor (Z.shiftl v n) (Z.shiftr v (64 - n))) mask64.

Definition lane (A : list Z) (x y : nat) : Z :=
  nth ((x mod 5) + 5 * (y mod 5))%nat A 0.

Definition tabulate (f : nat -> nat -> Z) : list Z :=
  map (fun i => f (i mod 5)%nat (i / 5)%nat) (seq 0 25).

Definition round_constants : list Z :=
  [0x0000000000000001; 0x0000000000008082; 0x800000000000808A;
   0x8000000080008000; 0x000000000000808B; 0x0000000080000001;
   0x8000000080008081; 0x8000000000008009; 0x000000000000008A;
   0x0000000000000088; 0x0000000080008009; 0x000000008000000A;
   0x000000008000808B; 0x800000000000008B; 0x8000000000008089;
   0x8000000000008003; 0x8000000000008002; 0x8000000000000080;
   0x000000000000800A; 0x800000008000000A; 0x8000000080008081;
   0x8000000000008080; 0x0000000080000001; 0x8000000080008008].

(** Rotation offsets, stored like the state at index [x + 5 * y]. *)
Definition rotation_offsets : list Z :=
  [ 0;  1; 62; 28; 27;
   36; 44;  6; 55; 20;
    3; 10; 43; 25; 39;
   41; 45; 15; 21;  8;
   18;  2; 61; 56; 14].

Definition theta (A : list Z) : list Z :=
  let C := fun x =>
    Z.lxor (lane A x 0) (Z.lxor (lane A x 1) (Z.lxor (lane A x 2)
      (Z.lxor (lane A x 3) (lane A x 4)))) in
  let D := fun x => Z.lxor (C ((x + 4) mod 5)%nat)
                           (rotl64 (C ((x + 1) mod 5)%nat) 1) in
  tabulate (fun x y => Z.lxor (lane A x y) (D x)).

Definition rho_pi (A : list Z) : list Z :=
  tabulate (fun x y =>
    let x0 := ((x + 3 * y) mod 5)%nat in
    rotl64 (lane A x0 x) (lane rotation_offsets x0 x)).

Definition chi (B : list Z) : list Z :=
  tabulate (fun x y =>
    Z.lxor (lane B x y)
      (Z.land (Z.lxor (lane B (x + 1) y) mask64) (lane B (x + 2) y))).

Definition iota (rc : Z) (A : list Z) : list Z :=
  match A with
  | [] => []
  | a :: r => Z.lxor a rc :: r
  end.

Definition round (A : list Z) (rc : Z) : list Z :=
  iota rc (chi (rho_pi (theta A))).

Definition keccak_f (A : list Z) : list Z :=
  fold_left round round_constants A.

Definition rate : nat := 136.

Definition pad (msg : list Z) : list Z :=
  let q := (rate - (List.length msg mod rate))%nat in
  match q with
  | 1%nat => msg ++ [0x81]
  | _ => msg ++ [0x01] ++ repeat 0 (q - 2) ++ [0x80]
  end.

Fixpoint le_lane (s : list Z) : Z :=
  match s with
  | [] => 0
  | b :: r => b + 256 * le_lane r
  end.

Fixpoint xor_into (A blk : list Z) : list Z :=
  match A, blk with
  | a :: A', b :: blk' => Z.lxor a b :: xor_into A' blk'
  | _, _ => A
  end.

Definition absorb (A : list Z) (block : list Z) : list Z :=
  keccak_f (xor_into A (map le_lane (chunks 8 block))).

Definition squeeze (A : list Z) : bytes :=
  flat_map (le_bytes 8) (firstn 4 A).

Definition keccak_256 (msg : bytes) : bytes :=
  squeeze (fold_left absorb (chunks rate (pad (map byte_to_Z msg)))
                     (repeat 0 25)).

End Keccak.

Definition keccak_256 := Keccak.keccak_256.

Definition ascii_bytes (s : string) : bytes := list_byte_of_string s.

(** ** Strings: [str.split(" ")], [" ".join], [str(int)] *)

Definition is_space (c : ascii) : bool := Ascii.eqb c " "%char.

Fixpoint split_space (s : string) : list string :=
  match s with
  | EmptyString => [EmptyString]
  | String c r =>
      if is_space c then EmptyString :: split_space r
      else match split_space r with
           | w :: ws => String c w :: ws
           | [] => [String c EmptyString]
           end
  end.

Fixpoint join_space (ws : list string) : string :=
  match ws with
  | [] => EmptyString
  | [w] => w
  | w :: r => (w ++ " " ++ join_space r)%string
  end.

Fixpoint has_space (s : string) : bool :=
  match s with
  | EmptyString => false
  | String c r => is_space c || has_space r
  end.

Fixpoint prefix_of (k : nat) (s : string) : string :=
  match k, s with
  | S k', String c r => String c (prefix_of k' r)
  | _, _ => EmptyString
  end.

Definition str_of_Z (z : Z) : string := NilZero.string_of_int (Z.to_int z).

(** ** uplexa.ed25519 *)

Module ed25519.

(** Modelled from the spec: [uplexa/ed25519.py] is not among the sources;
    [l] is the order of the prime-order subgroup of the curve. *)
Definition l : Z := 2 ^ 252 + 27742317777372353535851937790883648493.

(** Modelled from the spec: [decodeint] of the absent [uplexa/ed25519.py]
    reads a byte string as a little-endian integer.  The specification
    describes it for strings of 32 bytes, the length of a hash and of a
    key. *)
Definition decodeint (s : bytes) : Z := le_int s.

(** Modelled from the spec: [encodeint] of the absent [uplexa/ed25519.py]
    writes a scalar as 32 little-endian bytes. *)
Definition encodeint (y : Z) : bytes := le_bytes 32 y.

End ed25519.

(** Modelled from the spec: the point operations of [uplexa/ed25519.py],
    taken as an interface.  [decodepoint] has no result on a byte string
    that is no point of the curve. *)
Class Curve : Type := {
  point : Type;
  B : point;
  decodepoint : bytes -> option point;
  encodepoint : point -> bytes;
  scalarmult : point -> Z -> point;
  add_compressed : point -> point -> point
}.

(** Modelled from the spec: [uplexa/base58.py] is not among the sources;
    [base58_encode] maps a hexadecimal string to the address text. *)
Class Base58 : Type := {
  base58_encode : string -> string
}.

(** ** uplexa.wordlists: the mnemonic codec

    The wordlist classes ([uplexa/wordlists]) are not among the sources.
    Their contract in the specification is [encode(hex_entropy) -> phrase],
    [decode(phrase) -> hex_entropy] and [checksum_word(phrase) -> word]. *)

(** Modelled from the spec: a wordlist of the absent [uplexa/wordlists]: its
    words, the length of the prefix that tells them apart, and the function
    that gives the checksum word from the prefixes of the words of a
    phrase. *)
Record Wordlist : Type := {
  words : list string;
  unique_prefix_length : nat;
  checksum_of : list string -> string
}.

Fixpoint index_of (w : string) (l : list string) : option nat :=
  match l with
  | [] => None
  | x :: r => if String.eqb w x then Some O
              else option_map S (index_of w r)
  end.

Fixpoint mapM {A B : Type} (f : A -> res B) (l : list A) : res (list B) :=
  match l with
  | [] => Ok []
  | a :: r => b <- f a ;; t <- mapM f r ;; Ok (b :: t)
  end.

Definition wordlist_size (wl : Wordlist) : Z :=
  Z.of_nat (List.length (words wl)).

Definition word_at (wl : Wordlist) (i : Z) : res string :=
  match nth_error (words wl) (Z.to_nat i) with
  | Some w => Ok w
  | None => Err IndexError
  end.

Definition word_index (wl : Wordlist) (w : string) : res Z :=
  match index_of w (words wl) with
  | Some i => Ok (Z.of_nat i)
  | None => Err InvalidPhrase
  end.

(** Modelled from the spec: the words outside the checksum slot, which the
    checksum of the absent wordlist classes is computed from: the first 24 of
    a 24/25-word phrase, the first 12 of a 12/13-word one. *)
Definition payload {A : Type} (ws : list A) : list A :=
  if (24 <=? List.length ws)%nat then firstn 24 ws else firstn 12 ws.

(** Modelled from the spec: the checksum word of the absent wordlist
    classes, computed from a prefix of each word. *)
Definition checksum_word (wl : Wordlist) (ws : list string) : string :=
  checksum_of wl (map (prefix_of (unique_prefix_length wl)) ws).

(** Modelled from the spec: [get_checksum(phrase)] of the absent wordlist
    classes leaves the checksum slot of the phrase out. *)
Definition get_checksum (wl : Wordlist) (phrase : string) : string :=
  checksum_word wl (payload (split_space phrase)).

(** Modelled from the spec: the base-[n] arithmetic of the absent wordlist
    classes; the three word indices of a 4-byte value [x] over a list of [n]
    words, each index depending on the one before. *)
Definition block_indices (n x : Z) : list Z :=
  let w1 := x mod n in
  let w2 := (x / n + w1) mod n in
  let w3 := (x / n / n + w2) mod n in
  [w1; w2; w3].

(** Modelled from the spec: four bytes of entropy, read little-endian, give
    three words of the absent wordlist. *)
Definition encode_block (wl : Wordlist) (chunk : bytes) : res (list string) :=
  mapM (word_at wl) (block_indices (wordlist_size wl) (le_int chunk)).

(** Modelled from the spec: [encode(hex_entropy) -> phrase] of the absent
    wordlist classes; the entropy is consumed in 4-byte words and the phrase
    ends with the checksum word. *)
Definition encode (wl : Wordlist) (hex_entropy : string) : res string :=
  e <- unhexlify hex_entropy ;;
  blocks <- mapM (encode_block wl) (chunks 4 e) ;;
  let out := List.concat blocks in
  Ok (join_space (out ++ [checksum_word wl out])).

(** Modelled from the spec: decoding reverses the base-[n] arithmetic of
    the absent wordlist classes. *)
Definition block_value (n : Z) (t : list Z) : Z :=
  match t with
  | [w1; w2; w3] => w1 + n * ((w2 - w1) mod n) + n * n * ((w3 - w2) mod n)
  | _ => 0
  end.

(** Modelled from the spec: three word indices give back four
    little-endian bytes (absent wordlist classes). *)
Definition decode_block (n : Z) (t : list Z) : bytes :=
  le_bytes 4 (block_value n t).

(** Modelled from the spec: the word counts that [decode] of the absent
    wordlist classes accepts. *)
Definition supported_count (k : nat) : bool :=
  (k =? 12)%nat || (k =? 13)%nat || (k =? 24)%nat || (k =? 25)%nat.

(** Modelled from the spec: [decode(phrase) -> hex_entropy] of the absent
    wordlist classes; it rejects a phrase whose length is not 12, 13, 24 or
    25 words or that contains a word absent from the list. *)
Definition decode (wl : Wordlist) (phrase : string) : res string :=
  let ws := split_space phrase in
  if negb (supported_count (List.length ws)) then Err InvalidPhrase
  else
    idx <- mapM (word_index wl) ws ;;
    Ok (hexlify (flat_map (decode_block (wordlist_size wl))
                          (chunks 3 (payload idx)))).

(** ** os.urandom

    The system's random source is a sequence of bytes read behind a cursor. *)

Record RandomSource : Type := {
  rs_byte : nat -> byte;
  rs_pos : nat
}.

Definition urandom (n : nat) (src : RandomSource) : bytes * RandomSource :=
  (map (rs_byte src) (seq (rs_pos src) n),
   {| rs_byte := rs_byte src; rs_pos := (rs_pos src + n)%nat |}).

(** ** uplexa.seed *)

Definition generate_hex (n_bytes : nat) (src : RandomSource)
  : string * RandomSource :=
  let (h, src') := urandom n_bytes src in (hexlify h, src').

(** The fields [phrase], [hex] and [word_list] of a [Seed]; the two caches
    of public keys play no part in what follows. *)
Record Seed : Type := {
  phrase : string;
  hex : string;
  word_list : Wordlist
}.

Definition _encode_seed (wl : Wordlist) (h : string) : res Seed :=
  p <- encode wl h ;; Ok {| phrase := p; hex := h; word_list := wl |}.

Definition _decode_seed (wl : Wordlist) (p : string) : res Seed :=
  h <- decode wl p ;; Ok {| phrase := p; hex := h; word_list := wl |}.

Definition _validate_checksum (wl : Wordlist) (p : string) : res bool :=
  if String.eqb (get_checksum wl p) (last (split_space p) EmptyString)
  then Ok true
  else Err (ValueError "Invalid checksum").

(** The branch of [Seed.__init__] taken when [phrase_or_hex] is not empty. *)
Definition Seed_from_input (wl : Wordlist) (phrase_or_hex : string)
  : res Seed :=
  let seed_split := split_space phrase_or_hex in
  let k := List.length seed_split in
  if (24 <=? k)%nat then
    _ <- (if (k =? 25)%nat then _validate_checksum wl phrase_or_hex
          else Ok true) ;;
    _decode_seed wl phrase_or_hex
  else if (12 <=? k)%nat then
    _ <- (if (k =? 13)%nat then _validate_checksum wl phrase_or_hex
          else Ok true) ;;
    _decode_seed wl phrase_or_hex
  else if (k =? 1)%nat then
    if negb (String.length phrase_or_hex mod 8 =? 0)%nat then
      Err (ValueError ("Not valid hexadecimal: " ++ phrase_or_hex))
    else _encode_seed wl phrase_or_hex
  else
    Err (ValueError ("Not valid mnemonic phrase or hex: " ++ phrase_or_hex)).

(** [Seed.__init__]; the default argument is the empty string, and the
    random source is read only when the argument is empty. *)
Definition Seed_init (wl : Wordlist) (src : RandomSource)
    (phrase_or_hex : string) : res Seed * RandomSource :=
  match phrase_or_hex with
  | EmptyString =>
      let (h, src') := generate_hex 32 src in (_encode_seed wl h, src')
  | _ => (Seed_from_input wl phrase_or_hex, src)
  end.

Definition is_myuplexa (s : Seed) : bool :=
  (String.length (hex s) =? 32)%nat.

(** The bytes whose hexadecimal text [sc_reduce] returns. *)
Definition reduce_bytes (input : bytes) : bytes :=
  ed25519.encodeint (ed25519.decodeint input mod ed25519.l).

Definition sc_reduce (input : bytes) : string :=
  let integer := ed25519.decodeint input in
  let modulo := integer mod ed25519.l in
  hexlify (ed25519.encodeint modulo).

Definition hex_seed (s : Seed) : string := hex s.

Definition _hex_seed_keccak (s : Seed) : res bytes :=
  e <- unhexlify (hex s) ;; Ok (keccak_256 e).

Definition secret_spend_key (s : Seed) : res string :=
  a <- (if is_myuplexa s then _hex_seed_keccak s else unhexlify (hex s)) ;;
  Ok (sc_reduce a).

Definition secret_view_key (s : Seed) : res string :=
  b <- (if is_myuplexa s then _hex_seed_keccak s
        else k <- secret_spend_key s ;; unhexlify k) ;;
  Ok (sc_reduce (keccak_256 b)).

(** ** uplexa.wallet *)

(** Modelled from the spec: the master address of the absent
    [uplexa/address.py], with its text, its network byte and the hexadecimal
    public spend key that [spend_key()] returns. *)
Record Address : Type := {
  address_text : string;
  address_netbyte : Z;
  address_spend_key : string
}.

(** Modelled from the spec: [is_mainnet] of the absent [uplexa/address.py];
    the network byte of a mainnet master address is 18. *)
Definition is_mainnet (a : Address) : bool := address_netbyte a =? 18.

(** Modelled from the spec: [is_testnet] of the absent [uplexa/address.py];
    the network byte of a testnet master address is 53. *)
Definition is_testnet (a : Address) : bool := address_netbyte a =? 53.

(** Modelled from the spec: the two address classes of the absent
    [uplexa/address.py] that [get_address] returns; a [SubAddress] is built
    from its text. *)
Inductive BaseAddress : Type :=
| MasterAddress (a : Address)
| SubAddress (text : string).

(** Modelled from the spec: an account of the absent [uplexa/account.py],
    as the list that [addresses()] returns. *)
Record Account : Type := {
  account_addresses : list Address
}.

(** The accounts of the wallet and the secret view key that the backend
    returns. *)
Record Wallet : Type := {
  accounts : list Account;
  backend_view_key : string
}.

Definition view_key (w : Wallet) : string := backend_view_key w.

(** [self.accounts[0].addresses()[0]] *)
Definition address (w : Wallet) : res Address :=
  match accounts w with
  | [] => Err IndexError
  | acc :: _ =>
      match account_addresses acc with
      | [] => Err IndexError
      | a :: _ => Ok a
      end
  end.

Definition subaddr_prefix : bytes := ascii_bytes "SubAddr" ++ [x00].

Definition subaddr_hsdata (master_svk : bytes) (major minor : Z) : bytes :=
  subaddr_prefix ++ master_svk ++ pack_u32_le major ++ pack_u32_le minor.

(** The scalar handed to [ed25519.scalarmult(ed25519.B, .)]. *)
Definition subaddr_scalar (master_svk : bytes) (major minor : Z) : Z :=
  let m := keccak_256 (subaddr_hsdata master_svk major minor) in
  ed25519.decodeint m.

Definition subaddr_netbyte (master_address : Address) : Z :=
  if is_mainnet master_address then 42
  else if is_testnet master_address then 63 else 36.

(** The part of [get_address] after the [(0, 0)] test. *)
Definition derive_subaddress {C : Curve} {E : Base58}
    (w : Wallet) (master_address : Address) (major minor : Z)
  : res BaseAddress :=
  master_svk <- unhexlify (view_key w) ;;
  a <- address w ;;
  master_psk <- unhexlify (address_spend_key a) ;;
  P <- match decodepoint master_psk with
       | Some P => Ok P
       | None => Err PointError
       end ;;
  let D := add_compressed P
             (scalarmult B (subaddr_scalar master_svk major minor)) in
  let C' := scalarmult D (ed25519.decodeint master_svk) in
  let data := [byte_of_Z (subaddr_netbyte master_address)]
              ++ encodepoint D ++ encodepoint C' in
  let checksum := firstn 4 (keccak_256 data) in
  Ok (SubAddress (base58_encode (hexlify (data ++ checksum)))).

Definition index_error (which : string) (v : Z) : exn :=
  ValueError (which ++ " index " ++ str_of_Z v ++ " is outside uint32 range").

Definition get_address {C : Curve} {E : Base58}
    (w : Wallet) (major minor : Z) : res BaseAddress :=
  if (major <? 0) || (major >=? 2 ^ 32) then Err (index_error "major" major)
  else if (minor <? 0) || (minor >=? 2 ^ 32) then
    Err (index_error "minor" minor)
  else
    master_address <- address w ;;
    if (major =? minor) && (minor =? 0) then Ok (MasterAddress master_address)
    else derive_subaddress w master_address major minor.

(** ** uplexa.numbers

    [uplexa/numbers.py] is not among the sources; only its tests are. *)

(** [decimal.Decimal]: a signed coefficient times a power of ten. *)
Inductive Decimal : Type :=
| Finite (coefficient exponent : Z)
| Infinity (negative : bool)
| NaN.

Definition digit_value (c : ascii) : option Z :=
  let n := Z.of_nat (nat_of_ascii c) in
  if (48 <=? n) && (n <=? 57) then Some (n - 48) else None.

(** Plain notation [digits[.digits]], as in [Decimal('1.0000000000004')]. *)
Fixpoint parse_decimal (s : string) (acc : Z) (frac : option Z)
  : option Decimal :=
  match s with
  | EmptyString =>
      Some (Finite acc (match frac with Some k => - k | None => 0 end))
  | String c r =>
      if Ascii.eqb c "."%char then
        match frac with
        | None => parse_decimal r acc (Some 0)
        | Some _ => None
        end
      else
        match digit_value c with
        | Some d => parse_decimal r (10 * acc + d) (option_map Z.succ frac)
        | None => None
        end
  end.

Definition Decimal_of_string (s : string) : option Decimal :=
  match s with
  | EmptyString => None
  | String c r =>
      if Ascii.eqb c "-"%char then
        match parse_decimal r 0 None with
        | Some (Finite a e) => Some (Finite (- a) e)
        | _ => None
        end
      else parse_decimal s 0 None
  end.

(** [Decimal.__eq__]: numeric equality. *)
Definition Decimal_eqb (d1 d2 : Decimal) : bool :=
  match d1, d2 with
  | Finite c1 e1, Finite c2 e2 =>
      let m := Z.min e1 e2 in
      (c1 * 10 ^ (e1 - m) =? c2 * 10 ^ (e2 - m))%Z
  | Infinity n1, Infinity n2 => Bool.eqb n1 n2
  | _, _ => false
  end.

(** Modelled from the spec: the rounding of the absent [to_atomic];
    [num / den] rounded to the nearest integer, ties away from zero. *)
Definition round_half_away (num den : Z) : Z :=
  Z.sgn num * ((2 * Z.abs num + den) / (2 * den)).

(** Modelled from the spec: [to_atomic] of the absent [uplexa/numbers.py]
    multiplies by [10^12] and rounds to the nearest integer, ties away from
    zero; negative and non-finite amounts are caller errors. *)
Definition to_atomic (amount : Decimal) : res Z :=
  match amount with
  | Finite c e =>
      if c <? 0 then Err (ValueError "amount is negative")
      else if 0 <=? e + 12 then Ok (c * 10 ^ (e + 12))
      else Ok (round_half_away c (10 ^ (- (e + 12))))
  | _ => Err (ValueError "amount is not finite")
  end.

(** Modelled from the spec: [from_atomic] of the absent [uplexa/numbers.py]
    divides by [10^12] exactly. *)
Definition from_atomic (amount : Z) : Decimal := Finite amount (-12).

(** Modelled from the spec: [PaymentID] of the absent [uplexa/numbers.py]
    holds an unsigned integer value. *)
Record PaymentID : Type := { payment_id : Z }.

(** Modelled from the spec: a [PaymentID] is built from a hexadecimal
    string, an integer or another [PaymentID] (absent [uplexa/numbers.py]). *)
Inductive PaymentIDSource : Type :=
| FromHex (s : string)
| FromInt (v : Z)
| FromPaymentID (p : PaymentID).

Fixpoint hex_to_Z (s : string) (acc : Z) : option Z :=
  match s with
  | EmptyString => Some acc
  | String c r =>
      match hex_value c with
      | Some d => hex_to_Z r (16 * acc + d)
      | None => None
      end
  end.

(** [int(s, 16)] on a non-empty string of hexadecimal digits. *)
Definition int_of_hex (s : string) : res Z :=
  match s with
  | EmptyString => Err (ValueError "invalid literal for int() with base 16")
  | _ => match hex_to_Z s 0 with
         | Some v => Ok v
         | None => Err (ValueError "invalid literal for int() with base 16")
         end
  end.

(** Modelled from the spec: the constructor of the absent [PaymentID];
    the value must be in [[0, 2^256)]. *)
Definition PaymentID_init (source : PaymentIDSource) : res PaymentID :=
  v <- match source with
       | FromHex s => int_of_hex s
       | FromInt v => Ok v
       | FromPaymentID p => Ok (payment_id p)
       end ;;
  if (0 <=? v) && (v <? 2 ^ 256) then Ok {| payment_id := v |}
  else Err (ValueError "payment_id is outside the 256-bit range").

(** Modelled from the spec: [is_short] of the absent [PaymentID]; the
    value fits in 64 bits. *)
Definition is_short (p : PaymentID) : bool := payment_id p <? 2 ^ 64.

(** [v] as [2 * n] hexadecimal digits, most significant first. *)
Definition hex_fixed (n : nat) (v : Z) : string :=
  hexlify (rev (le_bytes n v)).

(** Modelled from the spec: the canonical rendering of the absent
    [PaymentID], zero-padded to 16 hexadecimal characters when short and to
    64 otherwise. *)
Definition PaymentID_repr (p : PaymentID) : string :=
  if is_short p then hex_fixed 8 (payment_id p)
  else hex_fixed 32 (payment_id p).

(** ** A wordlist to run the codec on

    The wordlists of the package are data files that are not among the
    sources; [sample_wordlist] has the size of the English list (1626
    words), with the words [w0], [w1], ... and a checksum word picked among
    the prefixes by their total length. *)

Definition sample_words : list string :=
  map (fun i => String "w"%char (str_of_Z (Z.of_nat i))) (seq 0 1626).

Definition sample_checksum (prefixes : list string) : string :=
  let total := fold_right (fun p acc => (String.length p + acc)%nat) O prefixes in
  nth (total mod List.length prefixes) prefixes EmptyString.

Definition sample_wordlist : Wordlist :=
  {| words := sample_words;
     unique_prefix_length := 5;
     checksum_of := sample_checksum |}.

Definition seed_of_hex (h : string) : Seed :=
  {| phrase := EmptyString; hex := h; word_list := sample_wordlist |}.

(** ** A group and a text encoding to run the derivation on

    [sample_curve] is the cyclic group of order [l] written additively, each
    point standing for its discrete logarithm in base [B]; [sample_base58]
    leaves the hexadecimal text as it is. *)

Definition sample_curve : Curve :=
  {| point := Z;
     B := 1;
     decodepoint := fun s =>
       if le_int s <? ed25519.l then Some (le_int s) else None;
     encodepoint := fun P => le_bytes 32 P;
     scalarmult := fun P e => (P * e) mod ed25519.l;
     add_compressed := fun P Q => (P + Q) mod ed25519.l |}.

Definition sample_base58 : Base58 := {| base58_encode := fun h => h |}.

(** The secret view key of the seed [000102030405060708090a0b0c0d0e0f]. *)
Definition sample_view_key : string :=
  "2e8616c7e1e469de319b925fd673bfbcc1b58f5ec82f23ec0cf39c614b453708".

Definition sample_svk : bytes :=
  [x2e; x86; x16; xc7; xe1; xe4; x69; xde; x31; x9b; x92; x5f; xd6; x73; xbf;
   xbc; xc1; xb5; x8f; x5e; xc8; x2f; x23; xec; x0c; xf3; x9c; x61; x4b; x45;
   x37; x08].

Definition sample_master : Address :=
  {| address_text := "UPX1sample";
     address_netbyte := 18;
     address_spend_key :=
       "0500000000000000000000000000000000000000000000000000000000000000" |}.

Definition sample_wallet : Wallet :=
  {| accounts := [ {| account_addresses := [sample_master] |} ];
     backend_view_key := sample_view_key |}.

Definition sample_psk : bytes := le_bytes 32 5.

(** Every three words of the phrase stand for a value of four bytes. *)
Definition blocks_in_range (wl : Wordlist) (p : string) : bool :=
  match mapM (word_index wl) (split_space p) with
  | Ok idx =>
      forallb (fun t => block_value (wordlist_size wl) t <? 2 ^ 32)
              (chunks 3 (payload idx))
  | Err _ => false
  end.

Fixpoint nodupb (l : list string) : bool :=
  match l with
  | [] => true
  | x :: r => negb (existsb (String.eqb x) r) && nodupb r
  end.

(** ** What the codec needs of a wordlist

    The words are distinct and free of spaces, three of them are enough for
    every 4-byte value, and the checksum word of a phrase over the list is a
    word of the list. *)
Definition wordlist_ok (wl : Wordlist) : Prop :=
  NoDup (words wl) /\
  2 ^ 32 <= wordlist_size wl ^ 3 /\
  Forall (fun w => has_space w = false) (words wl) /\
  (forall ws, ws <> [] -> Forall (fun w => In w (words wl)) ws ->
              In (checksum_word wl ws) (words wl)).

(** ** Phrases and a random source to run the constructor on

    [sample_phrase13] is the phrase of the entropy
    [000102030405060708090a0b0c0d0e0f] over [sample_wordlist], with its
    checksum word; [sample_phrase12] is the same without the checksum word. *)

Definition sample_phrase13 : string :=
  "w66 w207 w226 w418 w1343 w1387 w770 w853 w923 w1122 w363 w458 w226".

Definition sample_phrase12 : string :=
  "w66 w207 w226 w418 w1343 w1387 w770 w853 w923 w1122 w363 w458".

Definition sample_phrase14 : string :=
  "w66 w207 w226 w418 w1343 w1387 w770 w853 w923 w1122 w363 w458 w226 w0".

Definition sample_phrase13_bad : string :=
  "w66 w207 w226 w418 w1343 w1387 w770 w853 w923 w1122 w363 w458 w227".

Definition sample_source : RandomSource :=
  {| rs_byte := fun i => byte_of_Z (Z.of_nat i * 7 + 3); rs_pos := 0 |}.

(** ** uplexa.seed: public keys and the master address *)

(** Modelled from the spec: [public_from_secret_hex] of the absent
    [uplexa/ed25519.py]; the public key is the encoded point [B] times the
    secret scalar, in hexadecimal. *)
Definition public_from_secret_hex {C : Curve} (hk : string) : res string :=
  sk <- unhexlify hk ;;
  Ok (hexlify (encodepoint (scalarmult B (ed25519.decodeint sk)))).

(** The fields [_ed_pub_spend_key] and [_ed_pub_view_key] of a [Seed], [None]
    until the key is first asked for. *)
Record KeyCache : Type := {
  _ed_pub_spend_key : option string;
  _ed_pub_view_key : option string
}.

Definition empty_cache : KeyCache :=
  {| _ed_pub_spend_key := None; _ed_pub_view_key := None |}.

(** Truth value of a cached key: [None] and the empty string are false. *)
Definition cached (o : option string) : option string :=
  match o with
  | Some (String c r) => Some (String c r)
  | _ => None
  end.

Definition public_spend_key {C : Curve} (s : Seed) (c : KeyCache)
  : res string * KeyCache :=
  match cached (_ed_pub_spend_key c) with
  | Some k => (Ok k, c)
  | None =>
      match sk <- secret_spend_key s ;; public_from_secret_hex sk with
      | Ok k => (Ok k, {| _ed_pub_spend_key := Some k;
                          _ed_pub_view_key := _ed_pub_view_key c |})
      | Err e => (Err e, c)
      end
  end.

Definition public_view_key {C : Curve} (s : Seed) (c : KeyCache)
  : res string * KeyCache :=
  match cached (_ed_pub_view_key c) with
  | Some k => (Ok k, c)
  | None =>
      match sk <- secret_view_key s ;; public_from_secret_hex sk with
      | Ok k => (Ok k, {| _ed_pub_spend_key := _ed_pub_spend_key c;
                          _ed_pub_view_key := Some k |})
      | Err e => (Err e, c)
      end
  end.

(** ["{:x}".format(n)] for [n >= 0]: the hexadecimal digits of [n], without
    padding. *)
Fixpoint hex_digits (fuel : nat) (n : Z) (acc : string) : string :=
  match fuel with
  | O => acc
  | S f =>
      let acc' := String (hex_digit (n mod 16)) acc in
      if n / 16 =? 0 then acc' else hex_digits f (n / 16) acc'
  end.

Definition format_x (n : Z) : string :=
  hex_digits (S (Z.to_nat (Z.log2 n))) n EmptyString.

Definition valid_net (net : string) : bool :=
  String.eqb net "mainnet" || String.eqb net "testnet" ||
  String.eqb net "stagenet".

Definition master_netbyte (net : string) : Z :=
  if String.eqb net "mainnet" then 18
  else if String.eqb net "testnet" then 53 else 24.

(** The end of [public_address]: the text handed to [base58.encode], made
    of the network byte, the two public keys and the first eight characters
    of the Keccak-256 hex digest of those. *)
Definition address_payload (netbyte : Z) (psk pvk : string) : res string :=
  let data := (format_x netbyte ++ psk ++ pvk)%string in
  d <- unhexlify data ;;
  let checksum := hexlify (keccak_256 d) in
  Ok (data ++ substring 0 8 checksum)%string.

(** [Seed.public_address]; the result is the text that the absent factory
    [address] of [uplexa/address.py] is called with. *)
Definition public_address {C : Curve} {E : Base58}
    (s : Seed) (c : KeyCache) (net : string) : res string * KeyCache :=
  if negb (valid_net net) then
    (Err (ValueError
            "Invalid net argument. Must be one of ('mainnet', 'testnet', 'stagenet')."),
     c)
  else
    let netbyte := master_netbyte net in
    let (r1, c1) := public_spend_key s c in
    match r1 with
    | Err e => (Err e, c1)
    | Ok psk =>
        let (r2, c2) := public_view_key s c1 in
        match r2 with
        | Err e => (Err e, c2)
        | Ok pvk =>
            (fmap base58_encode (address_payload netbyte psk pvk), c2)
        end
    end.

(** ** uplexa.wallet: accounts, keys, confirmations *)

(** The loop of [Wallet.refresh] over the accounts that the backend reports;
    [truthy] is the truth value of an account object, whose class is not
    among the sources.  The back reference [_acc.wallet] is not kept. *)
Fixpoint refresh_loop (truthy : Account -> bool) (accs : list Account)
    (idx : nat) (reported : list Account) : list Account :=
  match reported with
  | [] => accs
  | _acc :: rest =>
      match nth_error accs idx with
      | Some a =>
          if truthy a then refresh_loop truthy accs idx rest
          else refresh_loop truthy (accs ++ [_acc]) (S idx) rest
      | None => refresh_loop truthy (accs ++ [_acc]) (S idx) rest
      end
  end.

(** [Wallet.refresh]; an [accounts] attribute that is [None] is the empty
    list after [self.accounts or []]. *)
Definition refresh (truthy : Account -> bool) (w : Wallet)
    (reported : list Account) : Wallet :=
  {| accounts := refresh_loop truthy (accounts w) 0 reported;
     backend_view_key := backend_view_key w |}.

Definition is_zero_char (c : ascii) : bool := Ascii.eqb c "0"%char.

(** [str.lstrip('0')], [str.rstrip('0')] and [str.strip('0')]. *)
Fixpoint lstrip0 (s : string) : string :=
  match s with
  | EmptyString => EmptyString
  | String c r => if is_zero_char c then lstrip0 r else s
  end.

Fixpoint rstrip0 (s : string) : string :=
  match s with
  | EmptyString => EmptyString
  | String c r =>
      match rstrip0 r with
      | EmptyString => if is_zero_char c then EmptyString
                       else String c EmptyString
      | r' => String c r'
      end
  end.

Definition strip0 (s : string) : string := rstrip0 (lstrip0 s).

Fixpoint all_zeros (s : string) : bool :=
  match s with
  | EmptyString => true
  | String c r => is_zero_char c && all_zeros r
  end.

(** [Wallet.spend_key], on the key that the backend returns. *)
Definition spend_key (backend_key : string) : option string :=
  if String.eqb (strip0 backend_key) EmptyString then None
  else Some backend_key.

(** A [Payment] with the height of its transaction, or a [Transaction] with
    its height; the height is [None] while the transaction is not mined. *)
Inductive TxnOrPayment : Type :=
| APayment (transaction_height : option Z)
| ATransaction (height : option Z).

(** [Wallet.confirmations], on the height that the backend returns; the
    subtraction from [None] raises [TypeError], which gives 0. *)
Definition confirmations (wallet_height : Z) (txn_or_pmt : TxnOrPayment) : Z :=
  let txn_height :=
    match txn_or_pmt with
    | APayment h => h
    | ATransaction h => h
    end in
  match txn_height with
  | Some h => Z.max 0 (wallet_height - h)
  | None => 0
  end.

(** ** uplexa.exceptions *)

Inductive ExcClass : Type :=
| Exception
| uPlexaException
| BackendException
| NoDaemonConnection
| AccountException
| WrongAddress
| WrongPaymentId
| NotEnoughMoney
| NotEnoughUnlockedMoney
| AmountIsZero
| TransactionNotPossible
| TransactionBroadcastError
| TransactionNotFound
| SignatureCheckFailed
| WalletIsNotDeterministic.

(** The base class named in each [class] statement. *)
Definition base_class (c : ExcClass) : option ExcClass :=
  match c with
  | Exception => None
  | uPlexaException => Some Exception
  | BackendException => Some uPlexaException
  | NoDaemonConnection => Some BackendException
  | AccountException => Some uPlexaException
  | WrongAddress => Some AccountException
  | WrongPaymentId => Some AccountException
  | NotEnoughMoney => Some AccountException
  | NotEnoughUnlockedMoney => Some NotEnoughMoney
  | AmountIsZero => Some AccountException
  | TransactionNotPossible => Some AccountException
  | TransactionBroadcastError => Some BackendException
  | TransactionNotFound => Some AccountException
  | SignatureCheckFailed => Some uPlexaException
  | WalletIsNotDeterministic => Some uPlexaException
  end.

Definition ExcClass_eqb (c d : ExcClass) : bool :=
  match c, d with
  | Exception, Exception
  | uPlexaException, uPlexaException
  | BackendException, BackendException
  | NoDaemonConnection, NoDaemonConnection
  | AccountException, AccountException
  | WrongAddress, WrongAddress
  | WrongPaymentId, WrongPaymentId
  | NotEnoughMoney, NotEnoughMoney
  | NotEnoughUnlockedMoney, NotEnoughUnlockedMoney
  | AmountIsZero, AmountIsZero
  | TransactionNotPossible, TransactionNotPossible
  | TransactionBroadcastError, TransactionBroadcastError
  | TransactionNotFound, TransactionNotFound
  | SignatureCheckFailed, SignatureCheckFailed
  | WalletIsNotDeterministic, WalletIsNotDeterministic => true
  | _, _ => false
  end.

(** [issubclass(c, d)], following the base classes at most [fuel] times. *)
Fixpoint issubclass_fuel (fuel : nat) (c d : ExcClass) : bool :=
  ExcClass_eqb c d ||
  match fuel with
  | O => false
  | S f =>
      match base_class c with
      | Some b => issubclass_fuel f b d
      | None => false
      end
  end.

Definition issubclass (c d : ExcClass) : bool := issubclass_fuel 15 c d.

(** ** utils/transfer.py: destination pairs *)

Fixpoint split_on (sep : ascii) (s : string) : list string :=
  match s with
  | EmptyString => [EmptyString]
  | String c r =>
      if Ascii.eqb c sep then EmptyString :: split_on sep r
      else match split_on sep r with
           | w :: ws => String c w :: ws
           | [] => [String c EmptyString]
           end
  end.

Fixpoint has_char (sep : ascii) (s : string) : bool :=
  match s with
  | EmptyString => false
  | String c r => Ascii.eqb c sep || has_char sep r
  end.

(** [addr, amount = s.split(':')]; the unpacking raises [ValueError] unless
    the split has exactly two parts. *)
Definition destpair_parts (s : string) : res (string * string) :=
  match split_on ":"%char s with
  | [addr; amount] => Ok (addr, amount)
  | [_] => Err (ValueError "not enough values to unpack (expected 2, got 1)")
  | _ => Err (ValueError "too many values to unpack (expected 2)")
  end.

(** [destpair], over the absent [address] and [as_uplexa] of the package. *)
Definition destpair {A D : Type} (address_of : string -> res A)
    (as_uplexa : string -> res D) (s : string) : res (A * D) :=
  parts <- destpair_parts s ;;
  a <- address_of (fst parts) ;;
  m <- as_uplexa (snd parts) ;;
  Ok (a, m).

(** * Properties *)

(** ** Test vectors of the hash *)

Example keccak_256_empty :
  hexlify (keccak_256 []) =
  "c5d2460186f7233c927e7db2dcc703c0e500b653ca82273b7bfad8045d85a470"%string.
Proof. vm_compute. reflexivity. Qed.

Example keccak_256_abc :
  hexlify (keccak_256 (ascii_bytes "abc")) =
  "4e03657aea45a94fc7d47ba826c8d667c0d1e6e33a64a036ec44f58fa12d6c45"%string.
Proof. vm_compute. reflexivity. Qed.

(** ** The result monad *)

Lemma bind_ok {A B : Type} (m : res A) (f : A -> res B) (b : B) :
  bind m f = Ok b -> exists a, m = Ok a /\ f a = Ok b.
Proof. destruct m as [a|e]; simpl; [eauto | discriminate]. Qed.

(** ** Bytes, little-endian integers, hexadecimal *)

Lemma byte_to_Z_range (b : byte) : 0 <= byte_to_Z b < 256.
Proof. destruct b; vm_compute; split; congruence. Qed.

Lemma byte_of_to_Z (b : byte) : byte_of_Z (byte_to_Z b) = b.
Proof. destruct b; reflexivity. Qed.

Lemma byte_of_Z_small (z : Z) :
  0 <= z < 256 -> byte_to_Z (byte_of_Z z) = z.
Proof.
  intros Hz. unfold byte_of_Z, byte_to_Z.
  rewrite Z.mod_small by lia.
  destruct (Byte.of_N (Z.to_N z)) as [b|] eqn:Hb.
  - apply Byte.to_of_N in Hb. rewrite Hb. lia.
  - apply Byte.of_N_None_iff in Hb. lia.
Qed.

Lemma byte_of_Z_mod (z : Z) : byte_of_Z z = byte_of_Z (z mod 256).
Proof. unfold byte_of_Z. now rewrite Z.mod_mod by lia. Qed.

Lemma byte_to_of_Z (z : Z) : byte_to_Z (byte_of_Z z) = z mod 256.
Proof.
  rewrite byte_of_Z_mod. apply byte_of_Z_small. apply Z.mod_pos_bound. lia.
Qed.

Lemma le_bytes_length (n : nat) (z : Z) : List.length (le_bytes n z) = n.
Proof. revert z. induction n; intros z; simpl; [reflexivity | now f_equal]. Qed.

Lemma le_int_range (s : bytes) : 0 <= le_int s < 256 ^ Z.of_nat (List.length s).
Proof.
  induction s as [|b r IH].
  - simpl. lia.
  - cbn [le_int List.length]. rewrite Nat2Z.inj_succ, Z.pow_succ_r by lia.
    pose proof (byte_to_Z_range b). lia.
Qed.

Lemma le_bytes_le_int (s : bytes) : le_bytes (List.length s) (le_int s) = s.
Proof.
  induction s as [|b r IH]; [reflexivity|].
  cbn [le_int List.length le_bytes].
  pose proof (byte_to_Z_range b) as Hb.
  f_equal.
  - rewrite byte_of_Z_mod.
    replace ((byte_to_Z b + 256 * le_int r) mod 256) with (byte_to_Z b).
    + apply byte_of_to_Z.
    + apply Z.mod_unique with (q := le_int r); lia.
  - replace ((byte_to_Z b + 256 * le_int r) / 256) with (le_int r); [exact IH|].
    apply Z.div_unique with (r := byte_to_Z b); lia.
Qed.

Lemma le_int_le_bytes (n : nat) (z : Z) :
  le_int (le_bytes n z) = z mod 256 ^ Z.of_nat n.
Proof.
  revert z. induction n as [|n IH]; intros z.
  - simpl. now rewrite Z.mod_1_r.
  - cbn [le_bytes le_int]. rewrite IH, byte_to_of_Z.
    rewrite Nat2Z.inj_succ, Z.pow_succ_r by lia.
    rewrite (Z.rem_mul_r z 256 (256 ^ Z.of_nat n)) by lia. reflexivity.
Qed.

Lemma hex_digits_of_byte (b : byte) :
  hex_value (hex_digit (byte_to_Z b / 16)) = Some (byte_to_Z b / 16) /\
  hex_value (hex_digit (byte_to_Z b mod 16)) = Some (byte_to_Z b mod 16).
Proof. destruct b; split; reflexivity. Qed.

Lemma unhexlify_hexlify (s : bytes) : unhexlify (hexlify s) = Ok s.
Proof.
  induction s as [|b r IH]; [reflexivity|].
  cbn [hexlify unhexlify].
  destruct (hex_digits_of_byte b) as [-> ->]. rewrite IH. cbn [bind].
  do 2 f_equal.
  rewrite <- (byte_of_to_Z b) at 3. f_equal.
  pose proof (Z.div_mod (byte_to_Z b) 16). lia.
Qed.

Lemma hexlify_length (s : bytes) :
  String.length (hexlify s) = (2 * List.length s)%nat.
Proof. induction s as [|b r IH]; simpl; [reflexivity | rewrite IH; lia]. Qed.

Lemma unhexlify_error (h : string) (e : exn) :
  unhexlify h = Err e -> e = BinasciiError.
Proof.
  assert (G : forall n h, (String.length h <= n)%nat ->
                unhexlify h = Err e -> e = BinasciiError).
  { induction n as [|n IH]; intros h0 Hn He.
    - destruct h0; simpl in *; [discriminate | lia].
    - destruct h0 as [|c1 [|c2 r]]; simpl in He; try congruence.
      destruct (hex_value c1); [|congruence].
      destruct (hex_value c2); [|congruence].
      destruct (unhexlify r) as [t|e'] eqn:Hr; cbn [bind] in He;
        [discriminate|].
      inversion He; subst. apply (IH r); [simpl in Hn; lia | exact Hr]. }
  apply (G (String.length h) h). lia.
Qed.

(** ** The hash has 32 bytes *)

Lemma tabulate_length (f : nat -> nat -> Z) :
  List.length (Keccak.tabulate f) = 25%nat.
Proof. unfold Keccak.tabulate. now rewrite length_map, length_seq. Qed.

Lemma round_length (A : list Z) (rc : Z) :
  List.length (Keccak.round A rc) = 25%nat.
Proof.
  unfold Keccak.round, Keccak.chi.
  pose proof (tabulate_length (fun x y =>
    Z.lxor (Keccak.lane (Keccak.rho_pi (Keccak.theta A)) x y)
      (Z.land (Z.lxor (Keccak.lane (Keccak.rho_pi (Keccak.theta A)) (x + 1) y)
                      Keccak.mask64)
              (Keccak.lane (Keccak.rho_pi (Keccak.theta A)) (x + 2) y)))) as H.
  destruct (Keccak.tabulate _) as [|a r]; [discriminate H | exact H].
Qed.

Lemma keccak_f_length (A : list Z) :
  List.length (Keccak.keccak_f A) = 25%nat.
Proof.
  unfold Keccak.keccak_f, Keccak.round_constants.
  cbn [fold_left]. apply round_length.
Qed.

Lemma absorb_all_length (blocks : list (list Z)) (A : list Z) :
  List.length A = 25%nat ->
  List.length (fold_left Keccak.absorb blocks A) = 25%nat.
Proof.
  revert A. induction blocks as [|b r IH]; intros A HA; [exact HA|].
  simpl. apply IH. unfold Keccak.absorb. apply keccak_f_length.
Qed.

Lemma keccak_256_length (msg : bytes) :
  List.length (keccak_256 msg) = 32%nat.
Proof.
  unfold keccak_256, Keccak.keccak_256, Keccak.squeeze.
  pose proof (absorb_all_length
    (chunks Keccak.rate (Keccak.pad (map byte_to_Z msg))) (repeat 0 25)
    (repeat_length 0 25)) as H.
  destruct (fold_left _ _ _) as [|a0 [|a1 [|a2 [|a3 r]]]];
    try discriminate H.
  cbn [firstn flat_map]. rewrite !length_app, !le_bytes_length. reflexivity.
Qed.

(** ** Scalar reduction *)

Lemma l_range : 0 < ed25519.l < 256 ^ 32.
Proof. vm_compute. split; reflexivity. Qed.

Lemma sc_reduce_hex (input : bytes) :
  sc_reduce input = hexlify (reduce_bytes input).
Proof. reflexivity. Qed.

Lemma reduce_bytes_length (input : bytes) :
  List.length (reduce_bytes input) = 32%nat.
Proof. apply le_bytes_length. Qed.

Lemma reduce_bytes_value (input : bytes) :
  ed25519.decodeint (reduce_bytes input) =
  ed25519.decodeint input mod ed25519.l.
Proof.
  unfold reduce_bytes, ed25519.decodeint, ed25519.encodeint.
  rewrite le_int_le_bytes. apply Z.mod_small.
  pose proof l_range. pose proof (Z.mod_pos_bound (le_int input) ed25519.l).
  change (Z.of_nat 32) with 32. lia.
Qed.

Lemma unhexlify_sc_reduce (input : bytes) :
  unhexlify (sc_reduce input) = Ok (reduce_bytes input).
Proof. apply unhexlify_hexlify. Qed.

(** ** Secret keys of a seed *)

(** C1: with a stored hex of 32 characters the secret spend key is the
    Keccak-256 hash of the entropy bytes reduced modulo [l], and the secret
    view key the hash of that hash reduced modulo [l]; with a stored hex of
    64 characters the secret spend key is the entropy reduced modulo [l] and
    the secret view key the reduced hash of the secret spend key bytes.  A
    reduced scalar is the hexadecimal text of the 32 little-endian bytes of
    the value modulo [l].  A hex that is no hexadecimal string makes every
    side raise alike. *)
Theorem seed_secret_keys (s : Seed) :
  (String.length (hex s) = 32%nat ->
     secret_spend_key s =
       fmap (fun e =>
               hexlify (le_bytes 32 (le_int (keccak_256 e) mod ed25519.l)))
            (unhexlify (hex s)) /\
     secret_view_key s =
       fmap (fun e =>
               hexlify (le_bytes 32
                 (le_int (keccak_256 (keccak_256 e)) mod ed25519.l)))
            (unhexlify (hex s))) /\
  (String.length (hex s) = 64%nat ->
     secret_spend_key s =
       fmap (fun e => hexlify (le_bytes 32 (le_int e mod ed25519.l)))
            (unhexlify (hex s)) /\
     secret_view_key s =
       fmap (fun e =>
               hexlify (le_bytes 32
                 (le_int (keccak_256 (le_bytes 32 (le_int e mod ed25519.l)))
                  mod ed25519.l)))
            (unhexlify (hex s))).
Proof.
  unfold secret_view_key, secret_spend_key, _hex_seed_keccak, is_myuplexa.
  split; intros Hlen; rewrite Hlen; cbn [Nat.eqb]; unfold fmap.
  - destruct (unhexlify (hex s)) as [e|err]; split; reflexivity.
  - destruct (unhexlify (hex s)) as [e|err]; split; try reflexivity.
    cbn [bind]. now rewrite unhexlify_sc_reduce.
Qed.

Lemma seed_secret_keys_witness :
  let short :=
    seed_of_hex "000102030405060708090a0b0c0d0e0f" in
  let long :=
    seed_of_hex
      "ffffffffffffffffffffffffffffffffffffffffffffffffffffffffffffffff" in
  (secret_spend_key short =
     fmap (fun e =>
             hexlify (le_bytes 32 (le_int (keccak_256 e) mod ed25519.l)))
          (unhexlify (hex short)) /\
   secret_view_key short =
     fmap (fun e =>
             hexlify (le_bytes 32
               (le_int (keccak_256 (keccak_256 e)) mod ed25519.l)))
          (unhexlify (hex short))) /\
  (secret_spend_key long =
     fmap (fun e => hexlify (le_bytes 32 (le_int e mod ed25519.l)))
          (unhexlify (hex long)) /\
   secret_view_key long =
     fmap (fun e =>
             hexlify (le_bytes 32
               (le_int (keccak_256 (le_bytes 32 (le_int e mod ed25519.l)))
                mod ed25519.l)))
          (unhexlify (hex long))).
Proof.
  intros short long. split.
  - apply (proj1 (seed_secret_keys short)). reflexivity.
  - apply (proj2 (seed_secret_keys long)). reflexivity.
Defined.

(** The keys of the two sample seeds, as texts. *)
Example sample_secret_keys :
  secret_spend_key
    (seed_of_hex
       "ffffffffffffffffffffffffffffffffffffffffffffffffffffffffffffffff") =
    Ok "1c95988d7431ecd670cf7d73f45befc6feffffffffffffffffffffffffffff0f"%string
  /\
  secret_view_key (seed_of_hex "000102030405060708090a0b0c0d0e0f") =
    Ok "2e8616c7e1e469de319b925fd673bfbcc1b58f5ec82f23ec0cf39c614b453708"%string.
Proof. split; vm_compute; reflexivity. Qed.

(** ** Sub-addresses *)

Lemma pack_u32_le_value (v : Z) :
  0 <= v < 2 ^ 32 -> le_int (pack_u32_le v) = v.
Proof.
  intros Hv. unfold pack_u32_le. rewrite le_int_le_bytes.
  apply Z.mod_small. change (256 ^ Z.of_nat 4) with (2 ^ 32). exact Hv.
Qed.

Lemma uint32_test_true (v : Z) :
  v < 0 \/ 2 ^ 32 <= v -> (v <? 0) || (v >=? 2 ^ 32) = true.
Proof.
  intros Hv. apply orb_true_iff. rewrite Z.geb_leb.
  destruct Hv; [left; now apply Z.ltb_lt | right; now apply Z.leb_le].
Qed.

Lemma uint32_test_false (v : Z) :
  0 <= v < 2 ^ 32 -> (v <? 0) || (v >=? 2 ^ 32) = false.
Proof.
  intros Hv. apply orb_false_iff. rewrite Z.geb_leb.
  split; [apply Z.ltb_ge | apply Z.leb_gt]; lia.
Qed.

Lemma address_error (w : Wallet) (e : exn) :
  address w = Err e -> e = IndexError.
Proof.
  unfold address. destruct (accounts w) as [|acc ?]; [congruence|].
  destruct (account_addresses acc); congruence.
Qed.

Lemma derive_subaddress_error {C : Curve} {E : Base58}
    (w : Wallet) (a : Address) (major minor : Z) (e : exn) :
  derive_subaddress w a major minor = Err e ->
  e = BinasciiError \/ e = IndexError \/ e = PointError.
Proof.
  unfold derive_subaddress.
  destruct (unhexlify (view_key w)) as [svk|e1] eqn:H1; cbn [bind].
  2:{ intros H. inversion H; subst. left. eapply unhexlify_error, H1. }
  destruct (address w) as [a'|e2] eqn:H2; cbn [bind].
  2:{ intros H. inversion H; subst. right. left. eapply address_error, H2. }
  destruct (unhexlify (address_spend_key a')) as [psk|e3] eqn:H3; cbn [bind].
  2:{ intros H. inversion H; subst. left. eapply unhexlify_error, H3. }
  destruct (decodepoint psk); cbn [bind]; intros H; inversion H; auto.
Qed.

Lemma index_error_not_raised (which : string) (v : Z) :
  index_error which v <> BinasciiError /\
  index_error which v <> IndexError /\
  index_error which v <> PointError.
Proof. unfold index_error. repeat split; discriminate. Qed.

(** C9: an index that is negative or at least [2^32] makes [get_address]
    raise the out-of-range error, whatever the wallet and the curve are (the
    major index is checked first); with both indices in range no such error
    is raised, and the four bytes packed for an index hold the index itself,
    not a truncation of it. *)
Theorem get_address_index_range {C : Curve} {E : Base58}
    (w : Wallet) (major minor : Z) :
  (major < 0 \/ 2 ^ 32 <= major ->
     get_address w major minor = Err (index_error "major" major)) /\
  (0 <= major < 2 ^ 32 -> minor < 0 \/ 2 ^ 32 <= minor ->
     get_address w major minor = Err (index_error "minor" minor)) /\
  (0 <= major < 2 ^ 32 -> 0 <= minor < 2 ^ 32 ->
     (forall which v, get_address w major minor <> Err (index_error which v))
     /\ le_int (pack_u32_le major) = major
     /\ le_int (pack_u32_le minor) = minor).
Proof.
  unfold get_address. repeat split.
  - intros Hmaj. now rewrite (uint32_test_true major Hmaj).
  - intros Hmaj Hmin.
    now rewrite (uint32_test_false major Hmaj), (uint32_test_true minor Hmin).
  - intros which v.
    rewrite (uint32_test_false major), (uint32_test_false minor) by assumption.
    pose proof (index_error_not_raised which v) as [N1 [N2 N3]].
    destruct (address w) as [a|e] eqn:Ha; cbn [bind].
    + destruct ((major =? minor) && (minor =? 0)); [discriminate|].
      intros Hd. apply derive_subaddress_error in Hd.
      destruct Hd as [Hd|[Hd|Hd]]; congruence.
    + intros He. inversion He as [He']. apply address_error in Ha. congruence.
  - now apply pack_u32_le_value.
  - now apply pack_u32_le_value.
Qed.

Lemma get_address_index_range_witness :
  @get_address sample_curve sample_base58 sample_wallet (2 ^ 32) 0 =
    Err (index_error "major" (2 ^ 32)) /\
  @get_address sample_curve sample_base58 sample_wallet 7 (-1) =
    Err (index_error "minor" (-1)) /\
  ((forall which v,
      @get_address sample_curve sample_base58 sample_wallet 7 (2 ^ 32 - 1) <>
      Err (index_error which v))
   /\ le_int (pack_u32_le 7) = 7
   /\ le_int (pack_u32_le (2 ^ 32 - 1)) = 2 ^ 32 - 1).
Proof.
  split; [|split].
  - apply (proj1 (@get_address_index_range sample_curve sample_base58
                    sample_wallet (2 ^ 32) 0)).
    right. lia.
  - apply (proj1 (proj2 (@get_address_index_range sample_curve sample_base58
                           sample_wallet 7 (-1)))); lia.
  - apply (proj2 (proj2 (@get_address_index_range sample_curve sample_base58
                           sample_wallet 7 (2 ^ 32 - 1)))); lia.
Defined.

Lemma get_address_derives {C : Curve} {E : Base58}
    (w : Wallet) (major minor : Z) :
  0 <= major < 2 ^ 32 -> 0 <= minor < 2 ^ 32 -> (major, minor) <> (0, 0) ->
  get_address w major minor =
    (a <- address w ;; derive_subaddress w a major minor).
Proof.
  intros Hmaj Hmin Hne. unfold get_address.
  rewrite (uint32_test_false major Hmaj), (uint32_test_false minor Hmin).
  destruct ((major =? minor) && (minor =? 0)) eqn:H5; [|reflexivity].
  apply andb_prop in H5. destruct H5 as [H5 H6].
  apply Z.eqb_eq in H5, H6. subst. now contradiction Hne.
Qed.

(** The derivation, step by step, for a wallet whose keys decode. *)
Lemma derive_subaddress_ok {C : Curve} {E : Base58}
    (w : Wallet) (a0 a : Address) (major minor : Z)
    (master_svk master_psk : bytes) (P : point) :
  unhexlify (view_key w) = Ok master_svk ->
  address w = Ok a ->
  unhexlify (address_spend_key a) = Ok master_psk ->
  decodepoint master_psk = Some P ->
  let D := add_compressed P
             (scalarmult B (subaddr_scalar master_svk major minor)) in
  let data := [byte_of_Z (subaddr_netbyte a0)] ++ encodepoint D ++
              encodepoint (scalarmult D (ed25519.decodeint master_svk)) in
  derive_subaddress w a0 major minor =
  Ok (SubAddress
        (base58_encode (hexlify (data ++ firstn 4 (keccak_256 data))))).
Proof.
  intros H1 H2 H3 H4. unfold derive_subaddress.
  rewrite H1, H2. cbn [bind]. rewrite H3. cbn [bind]. rewrite H4. reflexivity.
Qed.

(** C4: [get_address(0, 0)] is the master address of the wallet as the
    backend gave it, for every curve and text encoding alike (none of their
    operations is reached).  Every other pair of indices in range goes
    through the derivation: a result is never the master address, and for a
    wallet whose keys decode it is the sub-address of the points
    [D = P + m * B] and [C = svk * D], where [m] is the hash of
    ["SubAddr\0" || svk || LE32(major) || LE32(minor)], with the network
    byte 42, 63 or 36 and the first four bytes of the hash of those. *)
Theorem get_address_zero_zero {C : Curve} {E : Base58} (w : Wallet) :
  get_address w 0 0 = fmap MasterAddress (address w) /\
  (forall (C' : Curve) (E' : Base58),
     @get_address C' E' w 0 0 = @get_address C E w 0 0) /\
  (forall major minor,
     0 <= major < 2 ^ 32 -> 0 <= minor < 2 ^ 32 -> (major, minor) <> (0, 0) ->
     (forall b, get_address w major minor = Ok b ->
                exists t, b = SubAddress t) /\
     (forall (a : Address) (svk psk : bytes) (P : point),
        address w = Ok a ->
        unhexlify (view_key w) = Ok svk -> List.length svk = 32%nat ->
        unhexlify (address_spend_key a) = Ok psk ->
        decodepoint psk = Some P ->
        let m := keccak_256 (ascii_bytes "SubAddr" ++ [x00] ++ svk ++
                             le_bytes 4 major ++ le_bytes 4 minor) in
        let D := add_compressed P (scalarmult B (le_int m)) in
        let C0 := scalarmult D (le_int svk) in
        let data :=
          [byte_of_Z (if is_mainnet a then 42
                      else if is_testnet a then 63 else 36)] ++
          encodepoint D ++ encodepoint C0 in
        get_address w major minor =
        Ok (SubAddress
              (base58_encode
                 (hexlify (data ++ firstn 4 (keccak_256 data))))))).
Proof.
  assert (Hz : forall (C0 : Curve) (E0 : Base58),
             @get_address C0 E0 w 0 0 = fmap MasterAddress (address w)).
  { intros C0 E0. unfold get_address, fmap. cbn.
    destruct (address w); reflexivity. }
  split; [apply Hz|]. split; [intros; now rewrite !Hz|].
  intros major minor Hmaj Hmin Hne.
  pose proof (get_address_derives w major minor Hmaj Hmin Hne) as Hg.
  split.
  - intros b Hb. rewrite Hg in Hb.
    apply bind_ok in Hb. destruct Hb as [a [_ Hb]].
    unfold derive_subaddress in Hb.
    repeat (apply bind_ok in Hb; destruct Hb as [? [_ Hb]]).
    inversion Hb. eauto.
  - intros a svk psk P Ha Hsvk _ Hpsk HP m D C0 data.
    rewrite Hg, Ha. cbn [bind].
    rewrite (derive_subaddress_ok w a a major minor svk psk P
               Hsvk Ha Hpsk HP).
    unfold data, C0, D, m, subaddr_scalar, subaddr_hsdata, subaddr_prefix,
      subaddr_netbyte, pack_u32_le, ed25519.decodeint.
    now rewrite <- !app_assoc.
Qed.

Lemma get_address_zero_zero_witness :
  let m := keccak_256 (ascii_bytes "SubAddr" ++ [x00] ++ sample_svk ++
                       le_bytes 4 0 ++ le_bytes 4 2) in
  let D := @add_compressed sample_curve 5
             (@scalarmult sample_curve (@B sample_curve) (le_int m)) in
  let C0 := @scalarmult sample_curve D (le_int sample_svk) in
  let data :=
    [byte_of_Z (if is_mainnet sample_master then 42
                else if is_testnet sample_master then 63 else 36)] ++
    @encodepoint sample_curve D ++ @encodepoint sample_curve C0 in
  @get_address sample_curve sample_base58 sample_wallet 0 2 =
  Ok (SubAddress
        (@base58_encode sample_base58
           (hexlify (data ++ firstn 4 (keccak_256 data))))).
Proof.
  apply (proj2 (proj2 (proj2 (@get_address_zero_zero sample_curve
                                sample_base58 sample_wallet))
                  0 2 ltac:(lia) ltac:(lia) ltac:(discriminate))
           sample_master sample_svk sample_psk 5);
    reflexivity.
Defined.

(** C3, as the code has it: the scalar that multiplies [B] in the derivation
    of a sub-address is the Keccak-256 hash of
    ["SubAddr\0" || view_key_bytes || LE32(major) || LE32(minor)] read as a
    little-endian integer of 256 bits and handed to the multiplication as it
    is, with no reduction modulo the subgroup order. *)
Theorem get_address_scalar_is_raw_hash {C : Curve} {E : Base58}
    (w : Wallet) (a : Address) (major minor : Z)
    (master_svk master_psk : bytes) (P : point) :
  0 <= major < 2 ^ 32 -> 0 <= minor < 2 ^ 32 -> (major, minor) <> (0, 0) ->
  unhexlify (view_key w) = Ok master_svk ->
  address w = Ok a ->
  unhexlify (address_spend_key a) = Ok master_psk ->
  decodepoint master_psk = Some P ->
  let m := keccak_256 (ascii_bytes "SubAddr" ++ [x00] ++ master_svk ++
                       le_bytes 4 major ++ le_bytes 4 minor) in
  let D := add_compressed P (scalarmult B (le_int m)) in
  let data := [byte_of_Z (subaddr_netbyte a)] ++ encodepoint D ++
              encodepoint (scalarmult D (le_int master_svk)) in
  subaddr_scalar master_svk major minor = le_int m /\
  0 <= le_int m < 2 ^ 256 /\
  get_address w major minor =
  Ok (SubAddress
        (base58_encode (hexlify (data ++ firstn 4 (keccak_256 data))))).
Proof.
  intros Hmaj Hmin Hne H1 H2 H3 H4 m D data.
  assert (Hm : subaddr_scalar master_svk major minor = le_int m).
  { unfold subaddr_scalar, ed25519.decodeint, subaddr_hsdata, subaddr_prefix,
      pack_u32_le, m. now rewrite <- !app_assoc. }
  split; [exact Hm|]. split.
  - pose proof (le_int_range m) as Hr.
    assert (Hl : List.length m = 32%nat) by apply keccak_256_length.
    rewrite Hl in Hr. exact Hr.
  - rewrite (get_address_derives w major minor Hmaj Hmin Hne), H2.
    cbn [bind].
    rewrite (derive_subaddress_ok w a a major minor master_svk master_psk P
               H1 H2 H3 H4).
    rewrite Hm. reflexivity.
Qed.

Lemma get_address_scalar_is_raw_hash_witness :
  let m := keccak_256 (ascii_bytes "SubAddr" ++ [x00] ++ sample_svk ++
                       le_bytes 4 0 ++ le_bytes 4 2) in
  let D := @add_compressed sample_curve 5
             (@scalarmult sample_curve (@B sample_curve) (le_int m)) in
  let data := [byte_of_Z (subaddr_netbyte sample_master)] ++
              @encodepoint sample_curve D ++
              @encodepoint sample_curve
                (@scalarmult sample_curve D (le_int sample_svk)) in
  subaddr_scalar sample_svk 0 2 = le_int m /\
  0 <= le_int m < 2 ^ 256 /\
  @get_address sample_curve sample_base58 sample_wallet 0 2 =
  Ok (SubAddress
        (@base58_encode sample_base58
           (hexlify (data ++ firstn 4 (keccak_256 data))))).
Proof.
  apply (@get_address_scalar_is_raw_hash sample_curve sample_base58
           sample_wallet sample_master 0 2 sample_svk sample_psk 5);
    [lia | lia | discriminate | reflexivity | reflexivity | reflexivity
    | reflexivity].
Defined.

(** C3 as the spec states it fails: for the sample wallet and the indices
    [(0, 2)] the scalar that multiplies [B] is the hash itself, which is not
    below the subgroup order, and differs from the hash reduced modulo it. *)
Lemma subaddr_scalar_not_reduced :
  unhexlify (view_key sample_wallet) = Ok sample_svk /\
  subaddr_scalar sample_svk 0 2 =
    94811945840467832951146893169822259287484512003351712058640941012009628033533
  /\
  ed25519.decodeint (keccak_256 (subaddr_hsdata sample_svk 0 2))
    mod ed25519.l =
    730873335148424169495467850263334156341999331412913180615578814298722770676
  /\
  subaddr_scalar sample_svk 0 2 <>
    ed25519.decodeint (keccak_256 (subaddr_hsdata sample_svk 0 2))
      mod ed25519.l.
Proof.
  split; [reflexivity|]. split; [vm_compute; reflexivity|].
  split; [vm_compute; reflexivity|].
  vm_compute. discriminate.
Qed.

(** ** Constructing a seed from a phrase *)

Lemma mapM_error {A B : Type} (f : A -> res B) (x : exn) (l : list A) :
  (forall a e, f a = Err e -> e = x) ->
  forall e, mapM f l = Err e -> e = x.
Proof.
  intros Hf. induction l as [|a r IH]; intros e He; simpl in He.
  - discriminate.
  - destruct (f a) as [b|e1] eqn:Ha; cbn [bind] in He.
    + destruct (mapM f r) as [t|e2]; cbn [bind] in He; [discriminate|].
      inversion He; subst. now apply IH.
    + inversion He; subst. eapply Hf, Ha.
Qed.

Lemma word_index_error (wl : Wordlist) (w : string) (e : exn) :
  word_index wl w = Err e -> e = InvalidPhrase.
Proof. unfold word_index. destruct (index_of w (words wl)); congruence. Qed.

Lemma decode_error (wl : Wordlist) (p : string) (e : exn) :
  decode wl p = Err e -> e = InvalidPhrase.
Proof.
  unfold decode.
  destruct (negb (supported_count (List.length (split_space p))));
    [congruence|].
  destruct (mapM (word_index wl) (split_space p)) as [idx|e1] eqn:Hm;
    cbn [bind]; [discriminate|].
  intros H. inversion H; subst.
  eapply mapM_error; [apply word_index_error | exact Hm].
Qed.

Lemma decode_unsupported (wl : Wordlist) (p : string) :
  supported_count (List.length (split_space p)) = false ->
  decode wl p = Err InvalidPhrase.
Proof. intros H. unfold decode. now rewrite H. Qed.

Lemma decode_ok_count (wl : Wordlist) (p h : string) :
  decode wl p = Ok h ->
  supported_count (List.length (split_space p)) = true.
Proof.
  intros H. destruct (supported_count _) eqn:Hc; [reflexivity|].
  rewrite (decode_unsupported wl p Hc) in H. discriminate.
Qed.

Lemma decode_seed_not_checksum_error (wl : Wordlist) (p : string) :
  _decode_seed wl p <> Err (ValueError "Invalid checksum").
Proof.
  unfold _decode_seed. destruct (decode wl p) as [h|e] eqn:Hd; cbn [bind].
  - discriminate.
  - apply decode_error in Hd. subst. discriminate.
Qed.

Lemma Seed_init_input (wl : Wordlist) (src : RandomSource) (p : string) :
  (2 <= List.length (split_space p))%nat ->
  Seed_init wl src p = (Seed_from_input wl p, src).
Proof. destruct p; simpl; [lia | reflexivity]. Qed.

Lemma supported_count_cases (k : nat) :
  supported_count k = true <-> (k = 12 \/ k = 13 \/ k = 24 \/ k = 25)%nat.
Proof.
  unfold supported_count. rewrite !orb_true_iff, !Nat.eqb_eq. tauto.
Qed.

Ltac count_cases :=
  repeat match goal with
  | |- context [(?a <=? ?b)%nat] =>
      let H := fresh "Hle" in
      destruct (a <=? b)%nat eqn:H;
      [apply Nat.leb_le in H | apply Nat.leb_gt in H]
  | |- context [(?a =? ?b)%nat] =>
      let H := fresh "Heq" in
      destruct (a =? b)%nat eqn:H;
      [apply Nat.eqb_eq in H | apply Nat.eqb_neq in H]
  end; try lia.

(** C5: a phrase of two words or more whose word count is not 12, 13, 24 or
    25 is refused: below 12 words by the constructor itself, with the error
    "Not valid mnemonic phrase or hex", otherwise by the decoder of the
    wordlist, with the invalid-phrase error.  A construction that succeeds
    has one of the four counts, keeps the phrase and holds its decoding. *)
Theorem seed_word_count (wl : Wordlist) (src : RandomSource) (p : string) :
  (2 <= List.length (split_space p))%nat ->
  (supported_count (List.length (split_space p)) = false ->
     fst (Seed_init wl src p) =
       Err (if (List.length (split_space p) <? 12)%nat
            then ValueError ("Not valid mnemonic phrase or hex: " ++ p)
            else InvalidPhrase)) /\
  (forall s, fst (Seed_init wl src p) = Ok s ->
     supported_count (List.length (split_space p)) = true /\
     phrase s = p /\ decode wl p = Ok (hex s)).
Proof.
  intros Hk. rewrite (Seed_init_input wl src p Hk). cbn [fst].
  assert (Hbad : supported_count (List.length (split_space p)) = false ->
     Seed_from_input wl p =
       Err (if (List.length (split_space p) <? 12)%nat
            then ValueError ("Not valid mnemonic phrase or hex: " ++ p)
            else InvalidPhrase)).
  { intros Hc. unfold Seed_from_input, _decode_seed.
    rewrite (decode_unsupported wl p Hc).
    assert (Hn : ~ (List.length (split_space p) = 12 \/
                    List.length (split_space p) = 13 \/
                    List.length (split_space p) = 24 \/
                    List.length (split_space p) = 25)%nat).
    { intros H. apply supported_count_cases in H. congruence. }
    destruct (List.length (split_space p) <? 12)%nat eqn:Hlt;
      [apply Nat.ltb_lt in Hlt | apply Nat.ltb_ge in Hlt];
      count_cases; reflexivity. }
  split; [exact Hbad|].
  intros s Hs.
  destruct (supported_count (List.length (split_space p))) eqn:Hc.
  2:{ rewrite (Hbad eq_refl) in Hs. discriminate. }
  split; [reflexivity|].
  assert (Hd : exists u, u = Ok true /\
                 (_ <- u ;; _decode_seed wl p) = Ok s).
  { apply supported_count_cases in Hc. revert Hs. unfold Seed_from_input.
    count_cases; intros Hs;
      match type of Hs with
      | bind ?u _ = _ => destruct u as [[|]|] eqn:Hu
      end; try discriminate; eauto;
      unfold _validate_checksum in Hu;
      match type of Hu with
      | (if ?c then _ else _) = _ => destruct c
      end; discriminate. }
  destruct Hd as [u [-> Hd]]. cbn [bind] in Hd.
  unfold _decode_seed in Hd. apply bind_ok in Hd.
  destruct Hd as [h [Hh Hd]]. inversion Hd; subst. cbn. auto.
Qed.

Lemma seed_word_count_witness :
  fst (Seed_init sample_wordlist sample_source sample_phrase14) =
    Err InvalidPhrase /\
  (forall s,
     fst (Seed_init sample_wordlist sample_source sample_phrase12) = Ok s ->
     supported_count (List.length (split_space sample_phrase12)) = true /\
     phrase s = sample_phrase12 /\
     decode sample_wordlist sample_phrase12 = Ok (hex s)).
Proof.
  split.
  - apply (proj1 (seed_word_count sample_wordlist sample_source
                    sample_phrase14 ltac:(vm_compute; lia))).
    reflexivity.
  - apply (proj2 (seed_word_count sample_wordlist sample_source
                    sample_phrase12 ltac:(vm_compute; lia))).
Defined.

Example seed_of_sample_phrase12 :
  fst (Seed_init sample_wordlist sample_source sample_phrase12) =
  Ok {| phrase := sample_phrase12;
        hex := "000102030405060708090a0b0c0d0e0f";
        word_list := sample_wordlist |}.
Proof. vm_compute. reflexivity. Qed.

Example seed_of_three_words :
  fst (Seed_init sample_wordlist sample_source "w66 w207 w226") =
  Err (ValueError "Not valid mnemonic phrase or hex: w66 w207 w226").
Proof. vm_compute. reflexivity. Qed.

(** ** The checksum word *)

Lemma validate_checksum_spec (wl : Wordlist) (p : string) :
  (get_checksum wl p = last (split_space p) EmptyString ->
     _validate_checksum wl p = Ok true) /\
  (get_checksum wl p <> last (split_space p) EmptyString ->
     _validate_checksum wl p = Err (ValueError "Invalid checksum")).
Proof.
  unfold _validate_checksum.
  destruct (String.eqb_spec (get_checksum wl p)
                            (last (split_space p) EmptyString)); split;
    intros; congruence.
Qed.

(** C6: for a phrase of exactly 13 or exactly 25 words the constructor
    raises the error "Invalid checksum" if and only if the last word differs
    from the checksum word computed from the phrase; for a phrase of 12 or 24
    words the constructor goes to the decoder at once and never raises that
    error. *)
Theorem seed_checksum_check (wl : Wordlist) (src : RandomSource) (p : string) :
  ((List.length (split_space p) = 13 \/ List.length (split_space p) = 25)%nat
   -> (fst (Seed_init wl src p) = Err (ValueError "Invalid checksum") <->
       get_checksum wl p <> last (split_space p) EmptyString)) /\
  ((List.length (split_space p) = 12 \/ List.length (split_space p) = 24)%nat
   -> fst (Seed_init wl src p) = _decode_seed wl p /\
      fst (Seed_init wl src p) <> Err (ValueError "Invalid checksum")).
Proof.
  split; intros Hk.
  - rewrite (Seed_init_input wl src p) by lia. cbn [fst].
    destruct (validate_checksum_spec wl p) as [Hgood Hbad].
    assert (Hf : Seed_from_input wl p =
                 (_ <- _validate_checksum wl p ;; _decode_seed wl p)).
    { unfold Seed_from_input. destruct Hk as [Hk|Hk]; rewrite Hk; reflexivity. }
    rewrite Hf. split.
    + intros He Heq. rewrite (Hgood Heq) in He. cbn [bind] in He.
      now apply decode_seed_not_checksum_error in He.
    + intros Hne. rewrite (Hbad Hne). reflexivity.
  - rewrite (Seed_init_input wl src p) by lia. cbn [fst].
    assert (Hf : Seed_from_input wl p = _decode_seed wl p).
    { unfold Seed_from_input. destruct Hk as [Hk|Hk]; rewrite Hk; reflexivity. }
    rewrite Hf. split; [reflexivity | apply decode_seed_not_checksum_error].
Qed.

Lemma seed_checksum_check_witness :
  (fst (Seed_init sample_wordlist sample_source sample_phrase13_bad) =
     Err (ValueError "Invalid checksum") <->
   get_checksum sample_wordlist sample_phrase13_bad <>
     last (split_space sample_phrase13_bad) EmptyString) /\
  (fst (Seed_init sample_wordlist sample_source sample_phrase12) =
     _decode_seed sample_wordlist sample_phrase12 /\
   fst (Seed_init sample_wordlist sample_source sample_phrase12) <>
     Err (ValueError "Invalid checksum")).
Proof.
  split.
  - apply (proj1 (seed_checksum_check sample_wordlist sample_source
                    sample_phrase13_bad)).
    left. reflexivity.
  - apply (proj2 (seed_checksum_check sample_wordlist sample_source
                    sample_phrase12)).
    left. reflexivity.
Defined.

Example seed_of_sample_phrase13 :
  fst (Seed_init sample_wordlist sample_source sample_phrase13) =
  Ok {| phrase := sample_phrase13;
        hex := "000102030405060708090a0b0c0d0e0f";
        word_list := sample_wordlist |}.
Proof. vm_compute. reflexivity. Qed.

Example seed_of_sample_phrase13_bad :
  fst (Seed_init sample_wordlist sample_source sample_phrase13_bad) =
  Err (ValueError "Invalid checksum").
Proof. vm_compute. reflexivity. Qed.

(** ** Cutting lists into pieces *)

Lemma chunks_fuel_enough {A : Type} (n : nat) (f1 f2 : nat) (l : list A) :
  (0 < n)%nat -> (List.length l <= f1)%nat -> (List.length l <= f2)%nat ->
  chunks_fuel f1 n l = chunks_fuel f2 n l.
Proof.
  intros Hn. revert f2 l. induction f1 as [|f1 IH]; intros f2 l H1 H2.
  - destruct l; [|simpl in H1; lia]. destruct f2; reflexivity.
  - destruct l as [|a l]; [destruct f2; reflexivity|].
    destruct f2 as [|f2]; [simpl in H2; lia|].
    cbn [chunks_fuel]. f_equal.
    apply IH; rewrite length_skipn; cbn [List.length] in *; lia.
Qed.

Lemma chunks_unfold {A : Type} (n : nat) (l : list A) :
  (0 < n)%nat -> l <> [] ->
  chunks n l = firstn n l :: chunks n (skipn n l).
Proof.
  intros Hn Hl. destruct l as [|x l]; [congruence|].
  unfold chunks at 1. cbn [List.length chunks_fuel]. f_equal.
  apply chunks_fuel_enough; trivial.
  rewrite length_skipn. cbn [List.length]. lia.
Qed.

Lemma chunks_cons {A : Type} (n : nat) (a l : list A) :
  (0 < n)%nat -> List.length a = n ->
  chunks n (a ++ l) = a :: chunks n l.
Proof.
  intros Hn Ha.
  assert (Hf : firstn n (a ++ l) = a).
  { subst n. now rewrite firstn_app, Nat.sub_diag, firstn_all, firstn_O,
      app_nil_r. }
  assert (Hs : skipn n (a ++ l) = l).
  { subst n. now rewrite skipn_app, Nat.sub_diag, skipn_all, skipn_O. }
  rewrite chunks_unfold, Hf, Hs; trivial.
  destruct a; [simpl in Ha; lia | discriminate].
Qed.

Lemma chunks_concat {A : Type} (n : nat) (cs : list (list A)) :
  (0 < n)%nat -> Forall (fun c => List.length c = n) cs ->
  chunks n (List.concat cs) = cs.
Proof.
  intros Hn H. induction H as [|c cs Hc _ IH]; [reflexivity|].
  cbn [List.concat]. rewrite chunks_cons by assumption. now f_equal.
Qed.

Lemma split_pieces {A : Type} (n k : nat) (l : list A) :
  List.length l = (k * n)%nat ->
  exists cs, l = List.concat cs /\ List.length cs = k /\
             Forall (fun c => List.length c = n) cs.
Proof.
  revert l. induction k as [|k IH]; intros l Hl.
  - exists []. destruct l; [auto | simpl in Hl; lia].
  - destruct (IH (skipn n l)) as [cs [Hcs [Hlen Hall]]].
    { rewrite length_skipn. lia. }
    exists (firstn n l :: cs). repeat split.
    + cbn [List.concat]. rewrite <- Hcs. symmetry. apply firstn_skipn.
    + simpl. now f_equal.
    + constructor; [|exact Hall]. rewrite length_firstn. lia.
Qed.

Lemma concat_length_const {A : Type} (n : nat) (cs : list (list A)) :
  Forall (fun c => List.length c = n) cs ->
  List.length (List.concat cs) = (List.length cs * n)%nat.
Proof.
  intros H. induction H as [|c cs Hc _ IH]; [reflexivity|].
  cbn [List.concat List.length]. rewrite length_app, IH, Hc. lia.
Qed.

(** ** Looking words up *)

Lemma index_of_sound (w : string) (l : list string) (i : nat) :
  index_of w l = Some i -> nth_error l i = Some w.
Proof.
  revert i. induction l as [|x r IH]; intros i H; simpl in H; [discriminate|].
  destruct (String.eqb_spec w x) as [->|Hne].
  - inversion H. reflexivity.
  - destruct (index_of w r) as [j|]; [|discriminate].
    inversion H. simpl. now apply IH.
Qed.

Lemma index_of_complete (l : list string) (i : nat) (w : string) :
  NoDup l -> nth_error l i = Some w -> index_of w l = Some i.
Proof.
  intros Hnd. revert i. induction Hnd as [|x r Hx Hnd IH]; intros i H.
  - destruct i; discriminate.
  - destruct i as [|i]; simpl in H.
    + inversion H; subst. simpl. now rewrite String.eqb_refl.
    + simpl. destruct (String.eqb_spec w x) as [->|Hne].
      * exfalso. apply Hx. eapply nth_error_In, H.
      * now rewrite (IH i H).
Qed.

Lemma mapM_app {A B : Type} (f : A -> res B) (l1 l2 : list A)
    (r1 r2 : list B) :
  mapM f l1 = Ok r1 -> mapM f l2 = Ok r2 -> mapM f (l1 ++ l2) = Ok (r1 ++ r2).
Proof.
  revert r1. induction l1 as [|a l1 IH]; intros r1 H1 H2; simpl in *.
  - inversion H1. exact H2.
  - destruct (f a) as [b|]; cbn [bind] in *; [|discriminate].
    destruct (mapM f l1) as [t|] eqn:Ht; cbn [bind] in *; [|discriminate].
    inversion H1; subst. now rewrite (IH t eq_refl H2).
Qed.

Lemma mapM_length {A B : Type} (f : A -> res B) (l : list A) (r : list B) :
  mapM f l = Ok r -> List.length r = List.length l.
Proof.
  revert r. induction l as [|a l IH]; intros r H; simpl in H.
  - inversion H. reflexivity.
  - destruct (f a); cbn [bind] in H; [|discriminate].
    destruct (mapM f l) as [t|]; cbn [bind] in H; [|discriminate].
    inversion H; subst. simpl. f_equal. now apply IH.
Qed.

Lemma mapM_firstn {A B : Type} (f : A -> res B) (k : nat) (l : list A)
    (r : list B) :
  mapM f l = Ok r -> mapM f (firstn k l) = Ok (firstn k r).
Proof.
  revert k r. induction l as [|a l IH]; intros k r H; simpl in H.
  - inversion H. now rewrite !firstn_nil.
  - destruct (f a) as [b|] eqn:Ha; cbn [bind] in H; [|discriminate].
    destruct (mapM f l) as [t|] eqn:Ht; cbn [bind] in H; [|discriminate].
    inversion H; subst. destruct k; [reflexivity|].
    simpl. rewrite Ha. cbn [bind]. now rewrite (IH k t eq_refl).
Qed.

Lemma mapM_inverse {A B : Type} (f : A -> res B) (g : B -> res A)
    (l : list A) (r : list B) :
  (forall a b, f a = Ok b -> g b = Ok a) ->
  mapM f l = Ok r -> mapM g r = Ok l.
Proof.
  intros Hfg. revert r. induction l as [|a l IH]; intros r H; simpl in H.
  - inversion H. reflexivity.
  - destruct (f a) as [b|] eqn:Ha; cbn [bind] in H; [|discriminate].
    destruct (mapM f l) as [t|] eqn:Ht; cbn [bind] in H; [|discriminate].
    inversion H; subst. simpl. rewrite (Hfg a b Ha). cbn [bind].
    now rewrite (IH t eq_refl).
Qed.

Lemma mapM_Forall {A B : Type} (f : A -> res B) (P : B -> Prop)
    (l : list A) (r : list B) :
  (forall a b, f a = Ok b -> P b) ->
  mapM f l = Ok r -> Forall P r.
Proof.
  intros Hf. revert r. induction l as [|a l IH]; intros r H; simpl in H.
  - inversion H. constructor.
  - destruct (f a) as [b|] eqn:Ha; cbn [bind] in H; [|discriminate].
    destruct (mapM f l) as [t|] eqn:Ht; cbn [bind] in H; [|discriminate].
    inversion H; subst. constructor; eauto.
Qed.

Lemma mapM_total {A B : Type} (f : A -> res B) (P : A -> Prop) (l : list A) :
  (forall a, P a -> exists b, f a = Ok b) ->
  Forall P l -> exists r, mapM f l = Ok r.
Proof.
  intros Hf H. induction H as [|a l Ha _ [t Ht]]; [now exists []|].
  destruct (Hf a Ha) as [b Hb]. exists (b :: t). simpl.
  now rewrite Hb, Ht.
Qed.

Lemma word_at_index (wl : Wordlist) (w : string) (i : Z) :
  word_index wl w = Ok i -> word_at wl i = Ok w.
Proof.
  unfold word_index, word_at.
  destruct (index_of w (words wl)) as [k|] eqn:Hk; [|discriminate].
  intros H. inversion H. rewrite Nat2Z.id.
  now rewrite (index_of_sound _ _ _ Hk).
Qed.

Lemma word_index_range (wl : Wordlist) (w : string) (i : Z) :
  word_index wl w = Ok i -> 0 <= i < wordlist_size wl.
Proof.
  unfold word_index, wordlist_size.
  destruct (index_of w (words wl)) as [k|] eqn:Hk; [|discriminate].
  intros H. inversion H. apply index_of_sound in Hk.
  assert (k < List.length (words wl))%nat.
  { apply nth_error_Some. congruence. }
  lia.
Qed.

Lemma word_index_at (wl : Wordlist) (i : Z) (w : string) :
  NoDup (words wl) -> 0 <= i -> word_at wl i = Ok w -> word_index wl w = Ok i.
Proof.
  unfold word_index, word_at. intros Hnd Hi.
  destruct (nth_error (words wl) (Z.to_nat i)) as [x|] eqn:Hx; [|discriminate].
  intros H. inversion H; subst.
  rewrite (index_of_complete _ _ _ Hnd Hx). f_equal. lia.
Qed.

Lemma word_at_total (wl : Wordlist) (i : Z) :
  0 <= i < wordlist_size wl -> exists w, word_at wl i = Ok w.
Proof.
  unfold word_at, wordlist_size. intros Hi.
  destruct (nth_error (words wl) (Z.to_nat i)) as [x|] eqn:Hx; [eauto|].
  apply nth_error_None in Hx. lia.
Qed.

Lemma word_at_In (wl : Wordlist) (i : Z) (w : string) :
  word_at wl i = Ok w -> In w (words wl).
Proof.
  unfold word_at.
  destruct (nth_error (words wl) (Z.to_nat i)) as [x|] eqn:Hx; [|discriminate].
  intros H. inversion H; subst. eapply nth_error_In, Hx.
Qed.

(** ** Splitting and joining phrases *)

Lemma split_space_not_nil (s : string) : split_space s <> [].
Proof.
  destruct s as [|c r]; simpl; [discriminate|].
  destruct (is_space c); [discriminate|].
  destruct (split_space r); discriminate.
Qed.

Lemma split_space_word (w : string) :
  has_space w = false -> split_space w = [w].
Proof.
  induction w as [|c r IH]; intros H; [reflexivity|].
  simpl in *. apply orb_false_elim in H. destruct H as [Hc Hr].
  rewrite Hc, (IH Hr). reflexivity.
Qed.

Lemma split_space_app (w s : string) :
  has_space w = false ->
  split_space (w ++ String " "%char s) = w :: split_space s.
Proof.
  induction w as [|c r IH]; intros H.
  - reflexivity.
  - simpl in H. apply orb_false_elim in H. destruct H as [Hc Hr].
    cbn [String.append split_space]. rewrite Hc, (IH Hr). reflexivity.
Qed.

Lemma split_join (ws : list string) :
  ws <> [] -> Forall (fun w => has_space w = false) ws ->
  split_space (join_space ws) = ws.
Proof.
  intros Hne H. induction H as [|w r Hw Hr IH]; [congruence|].
  destruct r as [|w' r'].
  - simpl. now apply split_space_word.
  - change (join_space (w :: w' :: r'))
      with (w ++ String " "%char (join_space (w' :: r')))%string.
    rewrite split_space_app by exact Hw. f_equal. apply IH. discriminate.
Qed.

Lemma join_split (s : string) : join_space (split_space s) = s.
Proof.
  induction s as [|c r IH]; [reflexivity|].
  cbn [split_space].
  pose proof (split_space_not_nil r) as Hn.
  destruct (split_space r) as [|w ws] eqn:Hs; [congruence|].
  destruct (is_space c) eqn:Hc.
  - unfold is_space in Hc. apply Ascii.eqb_eq in Hc. subst c.
    cbn [join_space String.append]. f_equal. exact IH.
  - destruct ws as [|w' ws'].
    + cbn [join_space] in *. now f_equal.
    + cbn [join_space String.append] in *. now f_equal.
Qed.

(** ** Three words for four bytes *)

Lemma block_value_indices (n x : Z) :
  0 < n -> 0 <= x < n ^ 3 ->
  block_value n (block_indices n x) = x.
Proof.
  intros Hn Hx. unfold block_indices, block_value.
  assert (H1 : ((x / n + x mod n) mod n - x mod n) mod n = (x / n) mod n).
  { rewrite Zminus_mod_idemp_l. f_equal. lia. }
  assert (H2 : ((x / n / n + (x / n + x mod n) mod n) mod n -
                (x / n + x mod n) mod n) mod n = x / n / n).
  { rewrite Zminus_mod_idemp_l.
    replace (x / n / n + (x / n + x mod n) mod n - (x / n + x mod n) mod n)
      with (x / n / n) by lia.
    apply Z.mod_small. split.
    - apply Z.div_pos; [apply Z.div_pos|]; lia.
    - apply Z.div_lt_upper_bound; [lia|].
      apply Z.div_lt_upper_bound; [lia|].
      replace (n * (n * n)) with (n ^ 3) by ring. lia. }
  rewrite H1, H2.
  pose proof (Z.div_mod x n ltac:(lia)) as E1.
  pose proof (Z.div_mod (x / n) n ltac:(lia)) as E2.
  nia.
Qed.

Lemma block_indices_range (n x : Z) :
  0 < n -> Forall (fun i => 0 <= i < n) (block_indices n x).
Proof.
  intros Hn. unfold block_indices.
  repeat constructor; apply Z.mod_pos_bound; lia.
Qed.

Lemma block_indices_value (n a b c : Z) :
  0 <= a < n -> 0 <= b < n -> 0 <= c < n ->
  block_indices n (block_value n [a; b; c]) = [a; b; c].
Proof.
  intros Ha Hb Hc. assert (Hn : 0 < n) by lia.
  unfold block_value, block_indices.
  set (p := (b - a) mod n). set (q := (c - b) mod n).
  assert (Hp : 0 <= p < n) by (apply Z.mod_pos_bound; lia).
  assert (Hq : 0 <= q < n) by (apply Z.mod_pos_bound; lia).
  assert (E1 : (a + n * p + n * n * q) mod n = a).
  { symmetry. apply Z.mod_unique with (q := p + n * q); [lia | ring]. }
  assert (E2 : (a + n * p + n * n * q) / n = p + n * q).
  { symmetry. apply Z.div_unique with (r := a); [lia | ring]. }
  assert (E3 : (p + n * q) / n = q).
  { symmetry. apply Z.div_unique with (r := p); [lia | ring]. }
  rewrite E1, E2, E3.
  assert (E4 : (p + n * q + a) mod n = b).
  { replace (p + n * q + a) with (p + a + q * n) by ring.
    rewrite Z.mod_add by lia. unfold p.
    rewrite Zplus_mod_idemp_l. replace (b - a + a) with b by ring.
    apply Z.mod_small. lia. }
  rewrite E4.
  assert (E5 : (q + b) mod n = c).
  { unfold q. rewrite Zplus_mod_idemp_l. replace (c - b + b) with c by ring.
    apply Z.mod_small. lia. }
  now rewrite E5.
Qed.

(** ** Encoding, then decoding *)

Lemma word_index_total (wl : Wordlist) (w : string) :
  In w (words wl) -> exists i, word_index wl w = Ok i.
Proof.
  unfold word_index. generalize (words wl). intros l Hin.
  assert (H : exists k, index_of w l = Some k).
  { induction l as [|x r IH]; [contradiction|].
    simpl. destruct (String.eqb_spec w x) as [->|Hne]; [eauto|].
    destruct Hin as [->|Hin]; [congruence|].
    destruct (IH Hin) as [k Hk]. rewrite Hk. simpl. eauto. }
  destruct H as [k ->]. eauto.
Qed.

Lemma mapM_inverse_on {A B : Type} (P : A -> Prop) (f : A -> res B)
    (g : B -> res A) (l : list A) (r : list B) :
  (forall a b, P a -> f a = Ok b -> g b = Ok a) ->
  Forall P l -> mapM f l = Ok r -> mapM g r = Ok l.
Proof.
  intros Hfg HP. revert r.
  induction HP as [|a l Ha _ IH]; intros r H; simpl in H.
  - inversion H. reflexivity.
  - destruct (f a) as [b|] eqn:Hb; cbn [bind] in H; [|discriminate].
    destruct (mapM f l) as [t|] eqn:Ht; cbn [bind] in H; [|discriminate].
    inversion H; subst. simpl. rewrite (Hfg a b Ha Hb). cbn [bind].
    now rewrite (IH t eq_refl).
Qed.

Lemma decode_encoded_blocks (n : Z) (cs : list bytes) :
  2 ^ 32 <= n ^ 3 -> 0 < n ->
  Forall (fun c => List.length c = 4%nat) cs ->
  flat_map (decode_block n)
    (chunks 3 (List.concat (map (fun c => block_indices n (le_int c)) cs))) =
  List.concat cs.
Proof.
  intros Hn3 Hn Hcs. rewrite chunks_concat; [|lia|].
  2:{ apply Forall_map. apply Forall_forall. reflexivity. }
  induction Hcs as [|c cs Hc _ IH]; [reflexivity|].
  cbn [map flat_map List.concat]. f_equal; [|exact IH].
  unfold decode_block. rewrite block_value_indices; trivial.
  - rewrite <- Hc. apply le_bytes_le_int.
  - pose proof (le_int_range c) as Hr. rewrite Hc in Hr.
    change (256 ^ Z.of_nat 4) with (2 ^ 32) in Hr. lia.
Qed.

Lemma payload_snoc {A : Type} (l : list A) (x : A) :
  (List.length l = 12 \/ List.length l = 24)%nat ->
  payload (l ++ [x]) = l.
Proof.
  intros Hl. unfold payload. rewrite length_app. cbn [List.length].
  destruct Hl as [Hl|Hl]; rewrite Hl; cbn [Nat.add Nat.leb];
    rewrite <- Hl, firstn_app, Nat.sub_diag, firstn_all, firstn_O;
    apply app_nil_r.
Qed.

Section EncodeDecode.

Variable wl : Wordlist.
Hypothesis wl_ok : wordlist_ok wl.

Lemma wordlist_ok_size : 0 < wordlist_size wl.
Proof.
  destruct wl_ok as [_ [Hn _]]. unfold wordlist_size in *.
  destruct (List.length (words wl)); [|lia].
  simpl in Hn. lia.
Qed.

Lemma encode_block_ok (c : bytes) :
  exists ws,
    encode_block wl c = Ok ws /\
    List.length ws = 3%nat /\
    Forall (fun w => In w (words wl)) ws /\
    mapM (word_index wl) ws =
      Ok (block_indices (wordlist_size wl) (le_int c)).
Proof.
  pose proof wordlist_ok_size as Hn.
  pose proof (block_indices_range (wordlist_size wl) (le_int c) Hn) as Hr.
  destruct (mapM_total (word_at wl) _ _ (word_at_total wl) Hr) as [ws Hws].
  exists ws. unfold encode_block. repeat split.
  - exact Hws.
  - now rewrite (mapM_length _ _ _ Hws).
  - eapply mapM_Forall; [|exact Hws]. intros a b. apply word_at_In.
  - eapply mapM_inverse_on with (P := fun i => 0 <= i < wordlist_size wl);
      [|exact Hr|exact Hws].
    intros a b Ha. apply word_index_at; [apply wl_ok | lia].
Qed.

Lemma encode_blocks_ok (cs : list bytes) :
  exists blocks,
    mapM (encode_block wl) cs = Ok blocks /\
    List.length (List.concat blocks) = (List.length cs * 3)%nat /\
    Forall (fun w => In w (words wl)) (List.concat blocks) /\
    mapM (word_index wl) (List.concat blocks) =
      Ok (List.concat
            (map (fun c => block_indices (wordlist_size wl) (le_int c)) cs)).
Proof.
  induction cs as [|c cs [blocks [H1 [H2 [H3 H4]]]]].
  - exists []. repeat split; constructor.
  - destruct (encode_block_ok c) as [ws [G1 [G2 [G3 G4]]]].
    exists (ws :: blocks). cbn [mapM]. rewrite G1, H1. cbn [bind].
    repeat split.
    + cbn [List.concat List.length]. rewrite length_app, G2, H2. lia.
    + cbn [List.concat]. apply Forall_app. now split.
    + cbn [List.concat map]. now apply mapM_app.
Qed.

Lemma encode_then_decode (e : bytes) :
  (List.length e = 16 \/ List.length e = 32)%nat ->
  exists p, encode wl (hexlify e) = Ok p /\ decode wl p = Ok (hexlify e).
Proof.
  intros He. pose proof wordlist_ok_size as Hn.
  pose proof wl_ok as [Hnd [Hn3 [Hsp Hcs]]].
  assert (Hk : exists k, List.length e = (k * 4)%nat /\ (k = 4 \/ k = 8)%nat).
  { destruct He as [He|He]; [exists 4%nat | exists 8%nat]; lia. }
  destruct Hk as [k [Hlen Hk]].
  destruct (split_pieces 4 k e Hlen) as [cs [Hcat [Hcl Hall]]].
  destruct (encode_blocks_ok cs) as [blocks [H1 [H2 [H3 H4]]]].
  set (out := List.concat blocks) in *.
  assert (Hout : out <> []).
  { intros E. rewrite E in H2. cbn [List.length] in H2. lia. }
  pose proof (Hcs out Hout H3) as Hcw.
  destruct (word_index_total wl _ Hcw) as [icw Hicw].
  exists (join_space (out ++ [checksum_word wl out])). split.
  - unfold encode. rewrite unhexlify_hexlify. cbn [bind].
    rewrite Hcat at 1. rewrite chunks_concat by (trivial; lia).
    rewrite H1. reflexivity.
  - unfold decode. rewrite split_join.
    2:{ destruct out; discriminate. }
    2:{ apply Forall_app. split.
        - eapply Forall_impl; [|exact H3]. intros w Hw.
          rewrite Forall_forall in Hsp. now apply Hsp.
        - constructor; [|constructor].
          rewrite Forall_forall in Hsp. now apply Hsp. }
    assert (Hc : supported_count (List.length (out ++ [checksum_word wl out]))
                 = true).
    { rewrite length_app, H2, Hcl. destruct Hk; subst k; reflexivity. }
    rewrite Hc. cbn [negb].
    rewrite (mapM_app _ _ _ _ _ H4
               (ltac:(simpl; rewrite Hicw; reflexivity)
                : mapM (word_index wl) [checksum_word wl out] = Ok [icw])).
    cbn [bind]. rewrite payload_snoc.
    + rewrite decode_encoded_blocks; trivial. now rewrite <- Hcat.
    + rewrite (concat_length_const 3).
      * rewrite length_map, Hcl. lia.
      * apply Forall_map. apply Forall_forall. reflexivity.
Qed.

End EncodeDecode.

(** ** Decoding, then encoding *)

Lemma mapM_app_inv {A B : Type} (f : A -> res B) (l1 l2 : list A)
    (r : list B) :
  mapM f (l1 ++ l2) = Ok r ->
  exists r1 r2, mapM f l1 = Ok r1 /\ mapM f l2 = Ok r2 /\ r = r1 ++ r2.
Proof.
  revert r. induction l1 as [|a l1 IH]; intros r H; simpl in H.
  - exists [], r. auto.
  - destruct (f a) as [b|] eqn:Hb; cbn [bind] in H; [|discriminate].
    destruct (mapM f (l1 ++ l2)) as [t|] eqn:Ht; cbn [bind] in H;
      [|discriminate].
    inversion H; subst. destruct (IH t eq_refl) as [r1 [r2 [H1 [H2 ->]]]].
    exists (b :: r1), r2. simpl. rewrite Hb, H1. auto.
Qed.

Lemma mapM_concat {A B : Type} (f : A -> res B) (ts : list (list A))
    (r : list B) :
  mapM f (List.concat ts) = Ok r ->
  exists rs, mapM (mapM f) ts = Ok rs /\ List.concat rs = r.
Proof.
  revert r. induction ts as [|t ts IH]; intros r H.
  - simpl in H. inversion H. now exists [].
  - cbn [List.concat] in H. apply mapM_app_inv in H.
    destruct H as [r1 [r2 [H1 [H2 ->]]]].
    destruct (IH r2 H2) as [rs [Hrs <-]].
    exists (r1 :: rs). simpl. rewrite H1, Hrs. auto.
Qed.

Lemma mapM_ext_map {A B C : Type} (f : B -> res C) (g : A -> B)
    (h : A -> res C) (ts : list A) :
  Forall (fun t => f (g t) = h t) ts -> mapM f (map g ts) = mapM h ts.
Proof.
  intros H. induction H as [|t ts Ht _ IH]; [reflexivity|].
  simpl. now rewrite Ht, IH.
Qed.

Lemma block_value_nonneg (n a b c : Z) :
  0 < n -> 0 <= a -> 0 <= block_value n [a; b; c].
Proof.
  intros Hn Ha. unfold block_value.
  pose proof (Z.mod_pos_bound (b - a) n Hn).
  pose proof (Z.mod_pos_bound (c - b) n Hn). nia.
Qed.

Lemma encode_decoded_block (wl : Wordlist) (t : list Z) :
  List.length t = 3%nat ->
  Forall (fun i => 0 <= i < wordlist_size wl) t ->
  block_value (wordlist_size wl) t < 2 ^ 32 ->
  encode_block wl (decode_block (wordlist_size wl) t) = mapM (word_at wl) t.
Proof.
  intros Hl Hr Hv.
  destruct t as [|a [|b [|c [|? ?]]]]; try discriminate Hl.
  inversion Hr as [|? ? Ha Hr1]; subst.
  inversion Hr1 as [|? ? Hb Hr2]; subst.
  inversion Hr2 as [|? ? Hc _]; subst.
  unfold encode_block, decode_block.
  rewrite le_int_le_bytes, Z.mod_small.
  - now rewrite block_indices_value.
  - change (256 ^ Z.of_nat 4) with (2 ^ 32).
    pose proof (block_value_nonneg (wordlist_size wl) a b c). lia.
Qed.

Lemma payload_length {A : Type} (l : list A) :
  supported_count (List.length l) = true ->
  (List.length (payload l) = 12 \/ List.length (payload l) = 24)%nat.
Proof.
  intros H. apply supported_count_cases in H. unfold payload.
  destruct H as [H|[H|[H|H]]]; rewrite H; cbn [Nat.leb];
    rewrite length_firstn, H; [left|left|right|right]; reflexivity.
Qed.

Lemma mapM_payload {A B : Type} (f : A -> res B) (l : list A) (r : list B) :
  mapM f l = Ok r -> mapM f (payload l) = Ok (payload r).
Proof.
  intros H. unfold payload. rewrite (mapM_length _ _ _ H).
  destruct (24 <=? List.length l)%nat; now apply mapM_firstn.
Qed.

Lemma decode_then_encode (wl : Wordlist) (p h : string) :
  decode wl p = Ok h -> blocks_in_range wl p = true ->
  encode wl h =
  Ok (join_space (payload (split_space p) ++ [get_checksum wl p])).
Proof.
  intros Hd Hr. pose proof (decode_ok_count wl p h Hd) as Hc.
  unfold decode in Hd. rewrite Hc in Hd. cbn [negb] in Hd.
  unfold blocks_in_range in Hr.
  destruct (mapM (word_index wl) (split_space p)) as [idx|] eqn:Hm;
    [|discriminate].
  cbn [bind] in Hd. inversion Hd as [Hh]. clear Hd.
  pose proof (mapM_payload _ _ _ Hm) as Hpm.
  assert (Hlen : exists k, List.length (payload idx) = (k * 3)%nat).
  { rewrite <- (mapM_length _ _ _ Hm) in Hc.
    destruct (payload_length idx Hc) as [E|E]; rewrite E;
      [now exists 4%nat | now exists 8%nat]. }
  destruct Hlen as [k Hlen].
  destruct (split_pieces 3 k _ Hlen) as [ts [Hcat [_ Hall]]].
  rewrite Hcat in Hr, Hpm |- *.
  rewrite chunks_concat in Hr |- * by (trivial; lia).
  assert (Hrange : Forall (Forall (fun i => 0 <= i < wordlist_size wl)) ts).
  { apply Forall_concat.
    eapply mapM_Forall; [|exact Hpm]. intros a b. apply word_index_range. }
  pose proof (mapM_inverse _ _ _ _ (word_at_index wl) Hpm) as Hinv.
  destruct (mapM_concat _ _ _ Hinv) as [rs [Hrs Hcr]].
  unfold encode. rewrite unhexlify_hexlify. cbn [bind].
  rewrite flat_map_concat_map, chunks_concat; [|lia|].
  2:{ apply Forall_map. apply Forall_forall. intros t _.
      apply le_bytes_length. }
  rewrite (mapM_ext_map _ _ (mapM (word_at wl))).
  - rewrite Hrs. cbn [bind]. rewrite Hcr. reflexivity.
  - rewrite forallb_forall in Hr. apply Forall_forall. intros t Ht.
    apply encode_decoded_block.
    + rewrite Forall_forall in Hall. now apply Hall.
    + rewrite Forall_forall in Hrange. now apply Hrange.
    + apply Z.ltb_lt. now apply Hr.
Qed.

Lemma string_app_assoc (a b c : string) :
  ((a ++ b) ++ c = a ++ (b ++ c))%string.
Proof. induction a as [|x a IH]; simpl; [reflexivity | now rewrite IH]. Qed.

Lemma join_space_snoc (ws : list string) (w : string) :
  ws <> [] ->
  join_space (ws ++ [w]) = (join_space ws ++ " " ++ w)%string.
Proof.
  induction ws as [|x r IH]; [congruence|]. intros _.
  destruct r as [|y r'].
  - reflexivity.
  - change (join_space ((x :: y :: r') ++ [w]))
      with (x ++ " " ++ join_space ((y :: r') ++ [w]))%string.
    rewrite IH by discriminate.
    change (join_space (x :: y :: r'))
      with (x ++ " " ++ join_space (y :: r'))%string.
    now rewrite !string_app_assoc.
Qed.

Lemma firstn_snoc_last {A : Type} (k : nat) (l : list A) (d : A) :
  List.length l = S k -> firstn k l ++ [last l d] = l.
Proof.
  revert l. induction k as [|k IH]; intros l Hl.
  - destruct l as [|a [|b r]]; try discriminate Hl. reflexivity.
  - destruct l as [|a [|b r]]; try discriminate Hl.
    cbn [firstn app]. f_equal.
    change (last (a :: b :: r) d) with (last (b :: r) d).
    apply IH. simpl in *. lia.
Qed.

Lemma payload_with_checksum {A : Type} (l : list A) (d : A) :
  (List.length l = 13 \/ List.length l = 25)%nat ->
  payload l ++ [last l d] = l.
Proof.
  intros [H|H]; unfold payload; rewrite H; cbn [Nat.leb];
    now apply firstn_snoc_last.
Qed.

Lemma payload_without_checksum {A : Type} (l : list A) :
  (List.length l = 12 \/ List.length l = 24)%nat -> payload l = l.
Proof.
  intros [H|H]; unfold payload; rewrite H; cbn [Nat.leb];
    rewrite <- H; apply firstn_all.
Qed.

Lemma encode_total (wl : Wordlist) (e : bytes) :
  0 < wordlist_size wl -> exists p, encode wl (hexlify e) = Ok p.
Proof.
  intros Hn. unfold encode. rewrite unhexlify_hexlify. cbn [bind].
  destruct (mapM_total (encode_block wl) (fun _ => True) (chunks 4 e))
    as [blocks Hb].
  - intros c _. unfold encode_block.
    apply (mapM_total (word_at wl) _ _ (word_at_total wl)).
    now apply block_indices_range.
  - apply Forall_forall. trivial.
  - rewrite Hb. cbn [bind]. eauto.
Qed.

(** ** The sample wordlist *)

Lemma nodupb_NoDup (l : list string) : nodupb l = true -> NoDup l.
Proof.
  induction l as [|x r IH]; intros H; [constructor|].
  simpl in H. apply andb_prop in H. destruct H as [Hx Hr].
  constructor; [|now apply IH].
  intros Hin. apply negb_true_iff in Hx.
  assert (existsb (String.eqb x) r = true); [|congruence].
  apply existsb_exists. exists x. split; [exact Hin | apply String.eqb_refl].
Qed.

Lemma sample_wordlist_ok : wordlist_ok sample_wordlist.
Proof.
  repeat split.
  - apply nodupb_NoDup. vm_compute. reflexivity.
  - vm_compute. discriminate.
  - apply Forall_forall. intros w Hw.
    assert (H : forallb (fun w => negb (has_space w)) sample_words = true)
      by (vm_compute; reflexivity).
    rewrite forallb_forall in H. apply negb_true_iff. now apply H.
  - intros ws Hne Hws. unfold checksum_word. cbn [checksum_of
      unique_prefix_length sample_wordlist words] in *.
    assert (Hp : map (prefix_of 5) ws = ws).
    { assert (H : forallb (fun w => String.eqb (prefix_of 5 w) w)
                          sample_words = true) by (vm_compute; reflexivity).
      rewrite forallb_forall in H.
      rewrite <- (map_id ws) at 2. apply map_ext_in. intros w Hw.
      apply String.eqb_eq, H. rewrite Forall_forall in Hws. now apply Hws. }
    rewrite Hp. unfold sample_checksum.
    rewrite Forall_forall in Hws. apply Hws. apply nth_In.
    apply Nat.mod_upper_bound. destruct ws; [congruence | discriminate].
Qed.

(** ** Round trips of the codec *)

(** C2, as the codec has it: over a wordlist whose words are distinct, free
    of spaces, numerous enough for 4-byte values and closed under the
    checksum word, the phrase of an entropy of 16 or 32 bytes decodes to that
    entropy.  A phrase that decodes and whose word triples stand for 4-byte
    values encodes back to itself when it has 13 or 25 words, the last one
    being its checksum word; when it has 12 or 24 words its decoding encodes
    to the phrase followed by its checksum word. *)
Theorem phrase_round_trip (wl : Wordlist) :
  (wordlist_ok wl ->
   forall e : bytes,
     (List.length e = 16 \/ List.length e = 32)%nat ->
     exists p, encode wl (hexlify e) = Ok p /\ decode wl p = Ok (hexlify e)) /\
  (forall p h : string,
     decode wl p = Ok h -> blocks_in_range wl p = true ->
     ((List.length (split_space p) = 13 \/
       List.length (split_space p) = 25)%nat ->
      get_checksum wl p = last (split_space p) EmptyString ->
      encode wl h = Ok p) /\
     ((List.length (split_space p) = 12 \/
       List.length (split_space p) = 24)%nat ->
      encode wl h = Ok (p ++ " " ++ get_checksum wl p)%string)).
Proof.
  split.
  - intros Hok e He. now apply encode_then_decode.
  - intros p h Hd Hr. rewrite (decode_then_encode wl p h Hd Hr). split.
    + intros Hk Hc. rewrite Hc, payload_with_checksum by exact Hk.
      now rewrite join_split.
    + intros Hk. rewrite payload_without_checksum by exact Hk.
      rewrite join_space_snoc by apply split_space_not_nil.
      now rewrite join_split.
Qed.

Lemma phrase_round_trip_witness :
  (exists p,
     encode sample_wordlist (hexlify (le_bytes 16 0x0f0e0d0c0b0a09080706050403020100)) = Ok p /\
     decode sample_wordlist p =
       Ok (hexlify (le_bytes 16 0x0f0e0d0c0b0a09080706050403020100))) /\
  encode sample_wordlist "000102030405060708090a0b0c0d0e0f" =
    Ok sample_phrase13.
Proof.
  split.
  - apply (proj1 (phrase_round_trip sample_wordlist) sample_wordlist_ok).
    left. reflexivity.
  - apply (proj1 (proj2 (phrase_round_trip sample_wordlist)
                          sample_phrase13
                          "000102030405060708090a0b0c0d0e0f"%string
                          ltac:(vm_compute; reflexivity)
                          ltac:(vm_compute; reflexivity))).
    + left. reflexivity.
    + vm_compute. reflexivity.
Defined.

(** C2 as the spec states it fails on a phrase of 12 words: the constructor
    accepts [sample_phrase12], every word of which is in the list, and the
    encoding of its decoding is the phrase of 13 words that ends with the
    checksum word. *)
Lemma phrase12_not_round_trip :
  is_ok (fst (Seed_init sample_wordlist sample_source sample_phrase12)) = true
  /\ decode sample_wordlist sample_phrase12 =
       Ok "000102030405060708090a0b0c0d0e0f"%string
  /\ encode sample_wordlist "000102030405060708090a0b0c0d0e0f" =
       Ok sample_phrase13
  /\ (h <- decode sample_wordlist sample_phrase12 ;; encode sample_wordlist h)
     <> Ok sample_phrase12.
Proof.
  split; [reflexivity|]. split; [vm_compute; reflexivity|].
  split; [vm_compute; reflexivity|].
  vm_compute. discriminate.
Qed.

(** ** A generated seed *)

Lemma urandom_length (n : nat) (src : RandomSource) :
  List.length (fst (urandom n src)) = n.
Proof. unfold urandom. cbn [fst]. now rewrite length_map, length_seq. Qed.

(** C10: a seed constructed with no argument reads exactly 32 bytes of the
    random source; over a wordlist that is not empty the construction
    succeeds, the stored hex is the 64 characters of those bytes, the seed is
    not of the 12/13-word kind and its keys are derived from the bytes
    themselves, with no hash of the entropy first.  [generate_hex(n)] has
    [2 * n] characters. *)
Theorem seed_generated (wl : Wordlist) (src : RandomSource) :
  0 < wordlist_size wl ->
  rs_pos (snd (Seed_init wl src EmptyString)) = (rs_pos src + 32)%nat /\
  (exists s,
     fst (Seed_init wl src EmptyString) = Ok s /\
     hex s = hexlify (fst (urandom 32 src)) /\
     String.length (hex s) = 64%nat /\
     is_myuplexa s = false /\
     secret_spend_key s = Ok (sc_reduce (fst (urandom 32 src))) /\
     secret_view_key s =
       Ok (sc_reduce (keccak_256 (reduce_bytes (fst (urandom 32 src)))))) /\
  (forall n src', String.length (fst (generate_hex n src')) = (2 * n)%nat).
Proof.
  intros Hn.
  assert (Hg : forall n src',
             String.length (fst (generate_hex n src')) = (2 * n)%nat).
  { intros n src'. unfold generate_hex.
    destruct (urandom n src') as [h src''] eqn:Hu. cbn [fst].
    rewrite hexlify_length. f_equal.
    change h with (fst (h, src'')). rewrite <- Hu. apply urandom_length. }
  split; [reflexivity|]. split; [|exact Hg].
  destruct (encode_total wl (fst (urandom 32 src)) Hn) as [p Hp].
  exists {| phrase := p; hex := hexlify (fst (urandom 32 src));
            word_list := wl |}.
  assert (Hlen : String.length (hexlify (fst (urandom 32 src))) = 64%nat).
  { rewrite hexlify_length, urandom_length. reflexivity. }
  split.
  { cbn [Seed_init generate_hex urandom fst]. unfold _encode_seed.
    cbn [urandom fst] in Hp. rewrite Hp. reflexivity. }
  split; [reflexivity|]. split; [exact Hlen|].
  assert (Hm : is_myuplexa {| phrase := p;
                              hex := hexlify (fst (urandom 32 src));
                              word_list := wl |} = false).
  { unfold is_myuplexa. cbn [hex]. now rewrite Hlen. }
  split; [exact Hm|].
  unfold secret_view_key, secret_spend_key. rewrite Hm. cbn [hex].
  rewrite unhexlify_hexlify. cbn [bind]. rewrite unhexlify_sc_reduce.
  split; reflexivity.
Qed.

Lemma seed_generated_witness :
  rs_pos (snd (Seed_init sample_wordlist sample_source EmptyString)) =
    (rs_pos sample_source + 32)%nat /\
  (exists s,
     fst (Seed_init sample_wordlist sample_source EmptyString) = Ok s /\
     hex s = hexlify (fst (urandom 32 sample_source)) /\
     String.length (hex s) = 64%nat /\
     is_myuplexa s = false /\
     secret_spend_key s = Ok (sc_reduce (fst (urandom 32 sample_source))) /\
     secret_view_key s =
       Ok (sc_reduce (keccak_256
                        (reduce_bytes (fst (urandom 32 sample_source)))))) /\
  (forall n src', String.length (fst (generate_hex n src')) = (2 * n)%nat).
Proof.
  apply (seed_generated sample_wordlist sample_source). reflexivity.
Defined.

(** ** Amounts in atomic units *)




Example to_atomic_tie :
  option_map to_atomic (Decimal_of_string "0.0000000000025") = Some (Ok 3).
Proof. reflexivity. Qed.

Example to_atomic_negative :
  option_map to_atomic (Decimal_of_string "-1") =
  Some (Err (ValueError "amount is negative")).
Proof. reflexivity. Qed.

(** ** Payment identifiers *)

Lemma le_int_snoc (s : bytes) (b : byte) :
  le_int (s ++ [b]) = le_int s + 256 ^ Z.of_nat (List.length s) * byte_to_Z b.
Proof.
  induction s as [|a r IH].
  - cbn [app le_int List.length Z.of_nat]. change (256 ^ 0) with 1. lia.
  - cbn [app le_int List.length]. rewrite IH.
    rewrite Nat2Z.inj_succ, Z.pow_succ_r by lia. ring.
Qed.

Lemma hex_to_Z_hexlify (s : bytes) (acc : Z) :
  hex_to_Z (hexlify s) acc =
  Some (acc * 256 ^ Z.of_nat (List.length s) + le_int (rev s)).
Proof.
  revert acc. induction s as [|b r IH]; intros acc.
  - simpl. f_equal. lia.
  - cbn [hexlify hex_to_Z]. destruct (hex_digits_of_byte b) as [-> ->].
    rewrite IH. f_equal. cbn [rev List.length].
    rewrite le_int_snoc, length_rev, Nat2Z.inj_succ, Z.pow_succ_r by lia.
    pose proof (Z.div_mod (byte_to_Z b) 16 ltac:(lia)). nia.
Qed.

Lemma int_of_hex_fixed (n : nat) (v : Z) :
  (0 < n)%nat -> 0 <= v < 256 ^ Z.of_nat n ->
  int_of_hex (hex_fixed n v) = Ok v.
Proof.
  intros Hn Hv. unfold int_of_hex, hex_fixed.
  rewrite hex_to_Z_hexlify, rev_involutive, le_int_le_bytes.
  rewrite Z.mod_small by exact Hv. cbn [Z.mul Z.add].
  destruct n as [|n]; [lia|].
  cbn [le_bytes rev].
  destruct (rev (le_bytes n (v / 256)) ++ [byte_of_Z v]) as [|b r] eqn:E.
  - apply app_eq_nil in E. destruct E. discriminate.
  - reflexivity.
Qed.

Lemma hex_fixed_length (n : nat) (v : Z) :
  String.length (hex_fixed n v) = (2 * n)%nat.
Proof.
  unfold hex_fixed. now rewrite hexlify_length, length_rev, le_bytes_length.
Qed.

Lemma PaymentID_init_value (source : PaymentIDSource) (p : PaymentID) :
  PaymentID_init source = Ok p -> 0 <= payment_id p < 2 ^ 256.
Proof.
  unfold PaymentID_init. intros H. apply bind_ok in H.
  destruct H as [v [_ H]].
  destruct ((0 <=? v) && (v <? 2 ^ 256)) eqn:Hr; [|discriminate].
  inversion H; subst. cbn [payment_id].
  apply andb_prop in Hr. destruct Hr as [H1 H2].
  apply Z.leb_le in H1. apply Z.ltb_lt in H2. lia.
Qed.

Lemma PaymentID_init_int (v : Z) :
  0 <= v < 2 ^ 256 -> PaymentID_init (FromInt v) = Ok {| payment_id := v |}.
Proof.
  intros Hv. unfold PaymentID_init. cbn [bind].
  destruct (0 <=? v) eqn:H1; [|apply Z.leb_gt in H1; lia].
  destruct (v <? 2 ^ 256) eqn:H2; [|apply Z.ltb_ge in H2; lia].
  reflexivity.
Qed.

(** C8: construction from an integer succeeds exactly for the values of
    [[0, 2^256)], so [PaymentID(2**256 + 1)] raises; from a string it
    succeeds exactly when the string reads as such a value.  A payment
    identifier is short if and only if its value is below [2^64]; its
    rendering has 16 characters when short and 64 otherwise, reads back as
    the value, and constructs the same identifier again, as do the value and
    the identifier themselves. *)
Theorem payment_id_properties :
  (forall v, is_ok (PaymentID_init (FromInt v)) = true <-> 0 <= v < 2 ^ 256) /\
  (forall s, is_ok (PaymentID_init (FromHex s)) = true <->
             exists v, int_of_hex s = Ok v /\ 0 <= v < 2 ^ 256) /\
  PaymentID_init (FromInt (2 ^ 256 + 1)) =
    Err (ValueError "payment_id is outside the 256-bit range") /\
  (forall p, is_short p = true <-> payment_id p < 2 ^ 64) /\
  (forall source p, PaymentID_init source = Ok p ->
     0 <= payment_id p < 2 ^ 256 /\
     String.length (PaymentID_repr p) = (if is_short p then 16 else 64)%nat /\
     int_of_hex (PaymentID_repr p) = Ok (payment_id p) /\
     PaymentID_init (FromHex (PaymentID_repr p)) = Ok p /\
     PaymentID_init (FromInt (payment_id p)) = Ok p /\
     PaymentID_init (FromPaymentID p) = Ok p).
Proof.
  split; [|split; [|split; [|split]]].
  - intros v. split.
    + intros H. unfold PaymentID_init in H. cbn [bind] in H.
      destruct (0 <=? v) eqn:H1; [|discriminate].
      destruct (v <? 2 ^ 256) eqn:H2; [|discriminate].
      apply Z.leb_le in H1. apply Z.ltb_lt in H2. lia.
    + intros Hv. now rewrite PaymentID_init_int.
  - intros s. unfold PaymentID_init. split.
    + destruct (int_of_hex s) as [v|] eqn:Hs; cbn [bind]; [|discriminate].
      intros H. exists v. split; [reflexivity|].
      destruct (0 <=? v) eqn:H1; [|discriminate].
      destruct (v <? 2 ^ 256) eqn:H2; [|discriminate].
      apply Z.leb_le in H1. apply Z.ltb_lt in H2. lia.
    + intros [v [-> Hv]]. apply (PaymentID_init_int v) in Hv.
      unfold PaymentID_init in Hv. cbn [bind] in *. now rewrite Hv.
  - reflexivity.
  - intros p. unfold is_short. apply Z.ltb_lt.
  - intros source p Hp. pose proof (PaymentID_init_value source p Hp) as Hv.
    assert (Hr : int_of_hex (PaymentID_repr p) = Ok (payment_id p)).
    { unfold PaymentID_repr. destruct (is_short p) eqn:Hs.
      - apply int_of_hex_fixed; [lia|].
        unfold is_short in Hs. apply Z.ltb_lt in Hs.
        change (256 ^ Z.of_nat 8) with (2 ^ 64). lia.
      - apply int_of_hex_fixed; [lia|].
        change (256 ^ Z.of_nat 32) with (2 ^ 256). lia. }
    assert (Hi : PaymentID_init (FromInt (payment_id p)) = Ok p).
    { rewrite PaymentID_init_int by exact Hv. now destruct p. }
    split; [exact Hv|]. split.
    { unfold PaymentID_repr. destruct (is_short p); apply hex_fixed_length. }
    split; [exact Hr|]. split; [|split; [exact Hi|]].
    + unfold PaymentID_init in *. rewrite Hr. exact Hi.
    + exact Hi.
Qed.

Lemma payment_id_properties_witness :
  0 <= 0xa1234567812345678 < 2 ^ 256 /\
  String.length (PaymentID_repr {| payment_id := 0xa1234567812345678 |}) =
    64%nat /\
  int_of_hex (PaymentID_repr {| payment_id := 0xa1234567812345678 |}) =
    Ok 0xa1234567812345678 /\
  PaymentID_init
    (FromHex (PaymentID_repr {| payment_id := 0xa1234567812345678 |})) =
    Ok {| payment_id := 0xa1234567812345678 |} /\
  PaymentID_init (FromInt 0xa1234567812345678) =
    Ok {| payment_id := 0xa1234567812345678 |} /\
  PaymentID_init (FromPaymentID {| payment_id := 0xa1234567812345678 |}) =
    Ok {| payment_id := 0xa1234567812345678 |}.
Proof.
  apply (proj2 (proj2 (proj2 (proj2 payment_id_properties)))
           (FromHex "a1234567812345678")
           {| payment_id := 0xa1234567812345678 |}).
  reflexivity.
Defined.

(** The cases of [tests/test_numbers.py]. *)
Example payment_id_tests :
  fmap (fun p => (is_short p, payment_id p, PaymentID_repr p))
       (PaymentID_init (FromHex "0")) =
    Ok (true, 0, "0000000000000000"%string) /\
  fmap (fun p => (is_short p, payment_id p, PaymentID_repr p))
       (PaymentID_init (FromHex "abcdef")) =
    Ok (true, 0xabcdef, "0000000000abcdef"%string) /\
  fmap (fun p => (is_short p, payment_id p, PaymentID_repr p))
       (PaymentID_init (FromHex "1234567812345678")) =
    Ok (true, 0x1234567812345678, "1234567812345678"%string) /\
  fmap (fun p => (is_short p, payment_id p, PaymentID_repr p))
       (PaymentID_init (FromHex "a1234567812345678")) =
    Ok (false, 0xa1234567812345678,
        "00000000000000000000000000000000000000000000000a1234567812345678"%string).
Proof. repeat split. Qed.

Example amount_tests :
  option_map to_atomic (Decimal_of_string "0") = Some (Ok 0) /\
  option_map to_atomic (Decimal_of_string "0.000000000001") = Some (Ok 1) /\
  option_map (Decimal_eqb (from_atomic 0)) (Decimal_of_string "0") =
    Some true /\
  option_map (Decimal_eqb (from_atomic 1000000000000))
             (Decimal_of_string "1") = Some true.
Proof. repeat split. Qed.

(** The end-to-end case of the specification over the sample wordlist: 32
    zero bytes give a phrase of 25 words, which decodes to the same hex. *)
Example zero_entropy_round_trip :
  let h :=
    "0000000000000000000000000000000000000000000000000000000000000000"%string
  in
  fmap (fun p => List.length (split_space p)) (encode sample_wordlist h) =
    Ok 25%nat /\
  (p <- encode sample_wordlist h ;; decode sample_wordlist p) = Ok h.
Proof. split; vm_compute; reflexivity. Qed.


(** * Further properties of the code *)

(** ** Hexadecimal text *)

Lemma hexlify_app (a b : bytes) :
  hexlify (a ++ b) = (hexlify a ++ hexlify b)%string.
Proof. induction a as [|x a IH]; simpl; [reflexivity | now rewrite IH]. Qed.

Lemma hex_digit_no_space (b : byte) :
  is_space (hex_digit (byte_to_Z b / 16)) = false /\
  is_space (hex_digit (byte_to_Z b mod 16)) = false.
Proof. destruct b; split; reflexivity. Qed.

Lemma hexlify_no_space (s : bytes) : has_space (hexlify s) = false.
Proof.
  induction s as [|b r IH]; [reflexivity|].
  cbn [hexlify has_space]. destruct (hex_digit_no_space b) as [-> ->].
  exact IH.
Qed.

Lemma hexlify_empty (s : bytes) : hexlify s = EmptyString -> s = [].
Proof. destruct s; [reflexivity | discriminate]. Qed.

(** ** A seed from a hexadecimal argument *)

Lemma Seed_init_nonempty (wl : Wordlist) (src : RandomSource) (p : string) :
  p <> EmptyString -> Seed_init wl src p = (Seed_from_input wl p, src).
Proof. destruct p; [congruence | reflexivity]. Qed.

Lemma Seed_init_no_space (wl : Wordlist) (src : RandomSource) (p : string) :
  p <> EmptyString -> has_space p = false ->
  Seed_init wl src p =
    (if (String.length p mod 8 =? 0)%nat then _encode_seed wl p
     else Err (ValueError ("Not valid hexadecimal: " ++ p)), src).
Proof.
  intros Hne Hsp.
  rewrite (Seed_init_nonempty wl src p Hne). unfold Seed_from_input.
  rewrite (split_space_word p Hsp). cbn [List.length Nat.leb Nat.eqb].
  destruct (String.length p mod 8 =? 0)%nat; reflexivity.
Qed.

(** X1: an argument that is not empty and has no space is taken as hex: when
    its length is no multiple of 8 the constructor raises "Not valid
    hexadecimal" with the argument, otherwise its result is that of the
    encoding, the argument being stored as it is; the random source is left
    untouched. *)
Theorem seed_from_hex_argument (wl : Wordlist) (src : RandomSource)
    (p : string) :
  p <> EmptyString -> has_space p = false ->
  Seed_init wl src p =
    (if (String.length p mod 8 =? 0)%nat then _encode_seed wl p
     else Err (ValueError ("Not valid hexadecimal: " ++ p)), src) /\
  (forall s, fst (Seed_init wl src p) = Ok s ->
     hex s = p /\ (String.length p mod 8 = 0)%nat /\
     encode wl p = Ok (phrase s)).
Proof.
  intros Hne Hsp. pose proof (Seed_init_no_space wl src p Hne Hsp) as H.
  split; [exact H|]. rewrite H. cbn [fst]. intros s Hs.
  destruct (String.length p mod 8 =? 0)%nat eqn:Hl; [|discriminate].
  unfold _encode_seed in Hs. apply bind_ok in Hs.
  destruct Hs as [ph [Hph Hs]]. inversion Hs; subst. cbn.
  apply Nat.eqb_eq in Hl. auto.
Qed.

Lemma seed_from_hex_argument_witness :
  Seed_init sample_wordlist sample_source "0001020" =
    (if (String.length "0001020" mod 8 =? 0)%nat
     then _encode_seed sample_wordlist "0001020"
     else Err (ValueError ("Not valid hexadecimal: " ++ "0001020")),
     sample_source) /\
  (forall s, fst (Seed_init sample_wordlist sample_source "0001020") = Ok s ->
     hex s = "0001020"%string /\ (String.length "0001020" mod 8 = 0)%nat /\
     encode sample_wordlist "0001020" = Ok (phrase s)).
Proof.
  apply (seed_from_hex_argument sample_wordlist sample_source "0001020");
    [discriminate | reflexivity].
Defined.

(** ** Reduced scalars *)

Lemma reduce_bytes_range (input : bytes) :
  0 <= ed25519.decodeint (reduce_bytes input) < ed25519.l.
Proof.
  rewrite reduce_bytes_value. apply Z.mod_pos_bound. apply l_range.
Qed.

Lemma reduce_bytes_idempotent (input : bytes) :
  reduce_bytes (reduce_bytes input) = reduce_bytes input.
Proof.
  unfold reduce_bytes at 1. rewrite reduce_bytes_value.
  rewrite Z.mod_mod by (pose proof l_range; lia). reflexivity.
Qed.

(** X2: on a string of 32 bytes [sc_reduce] returns 64 hexadecimal
    characters, the text of the 32 little-endian bytes of the value of its
    input modulo [l]; those bytes stand for an integer below [l], and
    [sc_reduce] applied to them returns the same text again. *)
Theorem sc_reduce_canonical (input : bytes) :
  List.length input = 32%nat ->
  sc_reduce input = hexlify (le_bytes 32 (le_int input mod ed25519.l)) /\
  String.length (sc_reduce input) = 64%nat /\
  exists b,
    unhexlify (sc_reduce input) = Ok b /\
    List.length b = 32%nat /\
    0 <= le_int b < ed25519.l /\
    le_int b = le_int input mod ed25519.l /\
    sc_reduce b = sc_reduce input.
Proof.
  intros _. split; [reflexivity|]. split.
  - rewrite sc_reduce_hex, hexlify_length, reduce_bytes_length. reflexivity.
  - exists (reduce_bytes input).
    split; [apply unhexlify_sc_reduce|].
    split; [apply reduce_bytes_length|].
    split; [apply reduce_bytes_range|].
    split; [apply reduce_bytes_value|].
    now rewrite !sc_reduce_hex, reduce_bytes_idempotent.
Qed.

Lemma sc_reduce_canonical_witness :
  sc_reduce (le_bytes 32 (2 ^ 255)) =
    hexlify (le_bytes 32 (le_int (le_bytes 32 (2 ^ 255)) mod ed25519.l)) /\
  String.length (sc_reduce (le_bytes 32 (2 ^ 255))) = 64%nat /\
  exists b,
    unhexlify (sc_reduce (le_bytes 32 (2 ^ 255))) = Ok b /\
    List.length b = 32%nat /\
    0 <= le_int b < ed25519.l /\
    le_int b = le_int (le_bytes 32 (2 ^ 255)) mod ed25519.l /\
    sc_reduce b = sc_reduce (le_bytes 32 (2 ^ 255)).
Proof.
  apply (sc_reduce_canonical (le_bytes 32 (2 ^ 255))). reflexivity.
Defined.

(** ** Secret keys *)

Lemma is_ok_bind_total {A B : Type} (m : res A) (f : A -> B) :
  is_ok (a <- m ;; Ok (f a)) = is_ok m.
Proof. destruct m; reflexivity. Qed.

Lemma secret_spend_key_value (s : Seed) :
  secret_spend_key s =
  fmap (fun e => sc_reduce (if is_myuplexa s then keccak_256 e else e))
       (unhexlify (hex s)).
Proof.
  unfold secret_spend_key, _hex_seed_keccak, fmap.
  destruct (is_myuplexa s); destruct (unhexlify (hex s)); reflexivity.
Qed.

Lemma secret_view_key_value (s : Seed) :
  secret_view_key s =
  fmap (fun e => sc_reduce (keccak_256
                   (if is_myuplexa s then keccak_256 e else reduce_bytes e)))
       (unhexlify (hex s)).
Proof.
  unfold secret_view_key. rewrite secret_spend_key_value.
  unfold _hex_seed_keccak, fmap.
  destruct (is_myuplexa s); destruct (unhexlify (hex s)); try reflexivity.
  cbn [bind]. now rewrite unhexlify_sc_reduce.
Qed.

(** X3: for a seed whose hex has 32 or 64 characters the secret keys exist
    exactly when the hex is hexadecimal text; each is then a text of 64
    characters, that of 32 bytes standing for an integer below [l]. *)
Theorem secret_keys_exist (s : Seed) :
  (String.length (hex s) = 32 \/ String.length (hex s) = 64)%nat ->
  is_ok (secret_spend_key s) = is_ok (unhexlify (hex s)) /\
  is_ok (secret_view_key s) = is_ok (unhexlify (hex s)) /\
  (forall k, secret_spend_key s = Ok k \/ secret_view_key s = Ok k ->
     String.length k = 64%nat /\
     exists b, unhexlify k = Ok b /\ List.length b = 32%nat /\
               0 <= le_int b < ed25519.l).
Proof.
  intros _.
  rewrite secret_spend_key_value, secret_view_key_value. unfold fmap.
  split; [apply is_ok_bind_total|]. split; [apply is_ok_bind_total|].
  intros k Hk.
  assert (H : exists x, k = sc_reduce x).
  { destruct Hk as [Hk|Hk]; apply bind_ok in Hk;
      destruct Hk as [e [_ Hk]]; inversion Hk; eauto. }
  destruct H as [x ->]. rewrite sc_reduce_hex.
  split.
  - rewrite hexlify_length, reduce_bytes_length. reflexivity.
  - exists (reduce_bytes x). split; [apply unhexlify_hexlify|].
    split; [apply reduce_bytes_length | apply reduce_bytes_range].
Qed.

Lemma secret_keys_exist_witness :
  String.length
    "1c95988d7431ecd670cf7d73f45befc6feffffffffffffffffffffffffffff0f" =
    64%nat /\
  exists b,
    unhexlify
      "1c95988d7431ecd670cf7d73f45befc6feffffffffffffffffffffffffffff0f" =
      Ok b /\
    List.length b = 32%nat /\ 0 <= le_int b < ed25519.l.
Proof.
  apply (proj2 (proj2 (secret_keys_exist
           (seed_of_hex
              "ffffffffffffffffffffffffffffffffffffffffffffffffffffffffffffffff")
           ltac:(right; reflexivity)))).
  left. vm_compute. reflexivity.
Defined.

(** X4: two seeds whose hex has 64 characters and whose entropies are
    congruent modulo [l] as little-endian integers have the same secret
    spend key and the same secret view key. *)
Theorem congruent_entropies_same_keys (s1 s2 : Seed) (e1 e2 : bytes) :
  String.length (hex s1) = 64%nat -> String.length (hex s2) = 64%nat ->
  unhexlify (hex s1) = Ok e1 -> unhexlify (hex s2) = Ok e2 ->
  le_int e1 mod ed25519.l = le_int e2 mod ed25519.l ->
  secret_spend_key s1 = secret_spend_key s2 /\
  secret_view_key s1 = secret_view_key s2.
Proof.
  intros H1 H2 He1 He2 Hc.
  assert (M1 : is_myuplexa s1 = false) by (unfold is_myuplexa; now rewrite H1).
  assert (M2 : is_myuplexa s2 = false) by (unfold is_myuplexa; now rewrite H2).
  rewrite !secret_spend_key_value, !secret_view_key_value.
  rewrite M1, M2, He1, He2. unfold fmap. cbn [bind].
  assert (Hr : reduce_bytes e1 = reduce_bytes e2).
  { unfold reduce_bytes, ed25519.decodeint. now rewrite Hc. }
  rewrite !sc_reduce_hex, Hr. split; reflexivity.
Qed.

Lemma congruent_entropies_same_keys_witness :
  secret_spend_key (seed_of_hex (hexlify (le_bytes 32 5))) =
    secret_spend_key (seed_of_hex (hexlify (le_bytes 32 (5 + ed25519.l)))) /\
  secret_view_key (seed_of_hex (hexlify (le_bytes 32 5))) =
    secret_view_key (seed_of_hex (hexlify (le_bytes 32 (5 + ed25519.l)))).
Proof.
  apply (congruent_entropies_same_keys
           (seed_of_hex (hexlify (le_bytes 32 5)))
           (seed_of_hex (hexlify (le_bytes 32 (5 + ed25519.l))))
           (le_bytes 32 5) (le_bytes 32 (5 + ed25519.l)));
    [reflexivity | reflexivity | apply unhexlify_hexlify
    | apply unhexlify_hexlify | vm_compute; reflexivity].
Defined.

(** ** Generated hex *)

Lemma generate_hex_value (n : nat) (src : RandomSource) :
  generate_hex n src = (hexlify (fst (urandom n src)), snd (urandom n src)).
Proof. reflexivity. Qed.

(** X5: [generate_hex(n)] moves the random source forward by [n] bytes and
    returns the hexadecimal text of the bytes read; a call for [n] bytes
    followed by a call for [m] bytes reads the same bytes as one call for
    [n + m] bytes. *)
Theorem generate_hex_consecutive (n m : nat) (src : RandomSource) :
  rs_pos (snd (generate_hex n src)) = (rs_pos src + n)%nat /\
  unhexlify (fst (generate_hex n src)) = Ok (fst (urandom n src)) /\
  generate_hex (n + m) src =
    ((fst (generate_hex n src) ++
      fst (generate_hex m (snd (generate_hex n src))))%string,
     snd (generate_hex m (snd (generate_hex n src)))).
Proof.
  rewrite !generate_hex_value. cbn [fst snd].
  split; [reflexivity|]. split; [apply unhexlify_hexlify|].
  unfold urandom. cbn [fst snd rs_byte rs_pos].
  rewrite seq_app, map_app, hexlify_app, Nat.add_assoc. reflexivity.
Qed.

(** X6: the text of [generate_hex(n)] given to the constructor is taken as
    hex and accepted by its length test exactly when [n] is a multiple of 4;
    for [n = 0] the text is empty and the constructor draws a fresh seed of
    32 bytes instead. *)
Theorem seed_from_generated_hex (wl : Wordlist) (src0 src : RandomSource)
    (n : nat) :
  (n = 0%nat ->
     Seed_init wl src0 (fst (generate_hex n src)) =
       (_encode_seed wl (fst (generate_hex 32 src0)),
        snd (generate_hex 32 src0))) /\
  ((0 < n)%nat ->
     Seed_init wl src0 (fst (generate_hex n src)) =
       (if (n mod 4 =? 0)%nat
        then _encode_seed wl (fst (generate_hex n src))
        else Err (ValueError ("Not valid hexadecimal: " ++
                              fst (generate_hex n src))), src0)).
Proof.
  split.
  - intros ->. reflexivity.
  - intros Hn. rewrite generate_hex_value. cbn [fst].
    rewrite Seed_init_no_space.
    + rewrite hexlify_length, urandom_length.
      change 8%nat with (2 * 4)%nat.
      rewrite Nat.Div0.mul_mod_distr_l.
      destruct (n mod 4)%nat; reflexivity.
    + intros E. apply hexlify_empty in E.
      pose proof (urandom_length n src) as Hl. rewrite E in Hl.
      simpl in Hl. lia.
    + apply hexlify_no_space.
Qed.

Lemma seed_from_generated_hex_witness :
  Seed_init sample_wordlist sample_source
    (fst (generate_hex 6 sample_source)) =
    (if (6 mod 4 =? 0)%nat
     then _encode_seed sample_wordlist (fst (generate_hex 6 sample_source))
     else Err (ValueError ("Not valid hexadecimal: " ++
                           fst (generate_hex 6 sample_source))),
     sample_source).
Proof.
  apply (proj2 (seed_from_generated_hex sample_wordlist sample_source
                  sample_source 6)).
  lia.
Defined.

(** ** A seed built again from its phrase *)

Section Reimport.

Variable wl : Wordlist.
Hypothesis wl_ok : wordlist_ok wl.

Lemma encode_phrase_shape (e : bytes) :
  (List.length e = 16 \/ List.length e = 32)%nat ->
  exists out,
    encode wl (hexlify e) = Ok (join_space (out ++ [checksum_word wl out])) /\
    (List.length out = 12 \/ List.length out = 24)%nat /\
    split_space (join_space (out ++ [checksum_word wl out])) =
      out ++ [checksum_word wl out].
Proof.
  intros He. pose proof wl_ok as [Hnd [Hn3 [Hsp Hcs]]].
  assert (Hk : exists k, List.length e = (k * 4)%nat /\ (k = 4 \/ k = 8)%nat).
  { destruct He as [He|He]; [exists 4%nat | exists 8%nat]; lia. }
  destruct Hk as [k [Hlen Hk]].
  destruct (split_pieces 4 k e Hlen) as [cs [Hcat [Hcl Hall]]].
  destruct (encode_blocks_ok wl wl_ok cs) as [blocks [H1 [H2 [H3 H4]]]].
  set (out := List.concat blocks) in *.
  assert (Hlo : (List.length out = 12 \/ List.length out = 24)%nat) by lia.
  assert (Hout : out <> []).
  { intros E. rewrite E in Hlo. cbn [List.length] in Hlo. lia. }
  exists out. split; [|split; [exact Hlo|]].
  - unfold encode. rewrite unhexlify_hexlify. cbn [bind].
    rewrite Hcat at 1. rewrite chunks_concat by (trivial; lia).
    rewrite H1. reflexivity.
  - apply split_join; [destruct out; discriminate|].
    rewrite Forall_forall in Hsp. apply Forall_app. split.
    + eapply Forall_impl; [|exact H3]. intros w Hw. now apply Hsp.
    + constructor; [|constructor]. apply Hsp. now apply Hcs.
Qed.

Lemma last_snoc (l : list string) (x d : string) : last (l ++ [x]) d = x.
Proof. apply last_last. Qed.

Lemma Seed_from_encoded_phrase (e : bytes) (p : string) :
  (List.length e = 16 \/ List.length e = 32)%nat ->
  encode wl (hexlify e) = Ok p ->
  Seed_from_input wl p =
    Ok {| phrase := p; hex := hexlify e; word_list := wl |}.
Proof.
  intros He Hp.
  destruct (encode_phrase_shape e He) as [out [Henc [Hlo Hsplit]]].
  destruct (encode_then_decode wl wl_ok e He) as [p' [Hp' Hdec]].
  assert (p' = p) by congruence. subst p'.
  assert (Hpe : p = join_space (out ++ [checksum_word wl out])) by congruence.
  assert (Hv : _validate_checksum wl p = Ok true).
  { unfold _validate_checksum, get_checksum. rewrite Hpe, Hsplit.
    rewrite payload_snoc by exact Hlo. rewrite last_snoc.
    now rewrite String.eqb_refl. }
  unfold Seed_from_input, _decode_seed. rewrite Hv, Hdec.
  rewrite Hpe, Hsplit, length_app. cbn [List.length].
  destruct Hlo as [->| ->]; reflexivity.
Qed.

End Reimport.

(** X7: over a wordlist fit for the codec, the seed constructed from the hex
    of 16 or 32 bytes has a phrase from which the constructor builds the
    same seed again: same phrase, same hex, and so the same keys. *)
Theorem seed_reimport (wl : Wordlist) (src src' : RandomSource) (e : bytes) :
  wordlist_ok wl ->
  (List.length e = 16 \/ List.length e = 32)%nat ->
  exists s,
    fst (Seed_init wl src (hexlify e)) = Ok s /\
    hex s = hexlify e /\
    (List.length (split_space (phrase s)) = 13 \/
     List.length (split_space (phrase s)) = 25)%nat /\
    fst (Seed_init wl src' (phrase s)) = Ok s.
Proof.
  intros Hok He.
  destruct (encode_phrase_shape wl Hok e He) as [out [Henc [Hlo Hsplit]]].
  set (p := join_space (out ++ [checksum_word wl out])) in *.
  exists {| phrase := p; hex := hexlify e; word_list := wl |}.
  assert (Hne : hexlify e <> EmptyString).
  { intros E. apply hexlify_empty in E. rewrite E in He. simpl in He. lia. }
  split; [|split; [reflexivity|split]].
  - rewrite Seed_init_no_space by (trivial; apply hexlify_no_space).
    cbn [fst]. rewrite hexlify_length.
    unfold _encode_seed. rewrite Henc.
    destruct He as [->| ->]; reflexivity.
  - cbn [phrase]. rewrite Hsplit, length_app. cbn [List.length]. lia.
  - cbn [phrase]. rewrite Seed_init_nonempty.
    + cbn [fst]. now apply Seed_from_encoded_phrase.
    + intros E. rewrite E in Hsplit. cbn in Hsplit.
      apply (f_equal (@List.length string)) in Hsplit.
      rewrite length_app in Hsplit. cbn [List.length] in Hsplit. lia.
Qed.

Lemma seed_reimport_witness :
  exists s,
    fst (Seed_init sample_wordlist sample_source
           (hexlify (le_bytes 16 0x0f0e0d0c0b0a09080706050403020100))) = Ok s /\
    hex s = hexlify (le_bytes 16 0x0f0e0d0c0b0a09080706050403020100) /\
    (List.length (split_space (phrase s)) = 13 \/
     List.length (split_space (phrase s)) = 25)%nat /\
    fst (Seed_init sample_wordlist sample_source (phrase s)) = Ok s.
Proof.
  apply (seed_reimport sample_wordlist sample_source sample_source
           (le_bytes 16 0x0f0e0d0c0b0a09080706050403020100)
           sample_wordlist_ok).
  left. reflexivity.
Defined.


(** ** The data hashed for a sub-address *)

Lemma app_inv_same_length {A : Type} (x x' y y' : list A) :
  List.length x = List.length x' -> x ++ y = x' ++ y' -> x = x' /\ y = y'.
Proof.
  revert x'. induction x as [|a x IH]; intros [|a' x'] Hl H;
    try discriminate Hl.
  - auto.
  - cbn [app] in H. inversion H; subst.
    destruct (IH x' ltac:(simpl in Hl; lia) H2) as [-> ->]. auto.
Qed.

Lemma pack_u32_le_injective (a b : Z) :
  0 <= a < 2 ^ 32 -> 0 <= b < 2 ^ 32 ->
  pack_u32_le a = pack_u32_le b -> a = b.
Proof.
  intros Ha Hb H. rewrite <- (pack_u32_le_value a Ha), H.
  now apply pack_u32_le_value.
Qed.

(** X8: the byte string hashed for a sub-address has 16 bytes more than the
    view key, and two of them are equal only for the same view key and the
    same pair of indices: with view keys of one length and indices in the
    uint32 range, distinct pairs are hashed from distinct data. *)
Theorem subaddr_hsdata_injective (svk svk' : bytes) (a b a' b' : Z) :
  List.length svk = List.length svk' ->
  0 <= a < 2 ^ 32 -> 0 <= b < 2 ^ 32 ->
  0 <= a' < 2 ^ 32 -> 0 <= b' < 2 ^ 32 ->
  List.length (subaddr_hsdata svk a b) = (List.length svk + 16)%nat /\
  (subaddr_hsdata svk a b = subaddr_hsdata svk' a' b' ->
   svk = svk' /\ a = a' /\ b = b').
Proof.
  intros Hl Ha Hb Ha' Hb'. unfold subaddr_hsdata. split.
  - rewrite !length_app. unfold pack_u32_le. rewrite !le_bytes_length.
    unfold subaddr_prefix. rewrite length_app. cbn. lia.
  - intros H. apply app_inv_head in H.
    apply app_inv_same_length in H; [|exact Hl]. destruct H as [-> H].
    apply app_inv_same_length in H.
    2:{ unfold pack_u32_le. now rewrite !le_bytes_length. }
    destruct H as [H1 H2].
    apply pack_u32_le_injective in H1, H2; auto.
Qed.

Lemma subaddr_hsdata_injective_witness :
  List.length (subaddr_hsdata sample_svk 0 2) =
    (List.length sample_svk + 16)%nat /\
  (subaddr_hsdata sample_svk 0 2 = subaddr_hsdata sample_svk 2 0 ->
   sample_svk = sample_svk /\ 0 = 2 /\ 2 = 0).
Proof.
  apply (subaddr_hsdata_injective sample_svk sample_svk 0 2 2 0);
    [reflexivity | lia | lia | lia | lia].
Defined.

(** ** When the derivation of a sub-address succeeds *)



(** ** Refreshing the accounts *)

Lemma refresh_loop_at_end (truthy : Account -> bool)
    (reported accs : list Account) :
  refresh_loop truthy accs (List.length accs) reported = accs ++ reported.
Proof.
  revert accs. induction reported as [|r rest IH]; intros accs.
  - now rewrite app_nil_r.
  - cbn [refresh_loop].
    assert (Hn : nth_error accs (List.length accs) = None)
      by (apply nth_error_None; lia).
    rewrite Hn.
    replace (S (List.length accs)) with (List.length (accs ++ [r]))
      by (rewrite length_app; simpl; lia).
    rewrite IH, <- app_assoc. reflexivity.
Qed.

Lemma refresh_loop_stuck (truthy : Account -> bool)
    (reported accs : list Account) (idx : nat) (a : Account) :
  nth_error accs idx = Some a -> truthy a = true ->
  refresh_loop truthy accs idx reported = accs.
Proof.
  intros Ha Ht. induction reported as [|r rest IH]; [reflexivity|].
  cbn [refresh_loop]. now rewrite Ha, Ht.
Qed.

(** X10: [refresh] on a wallet without accounts takes every account that the
    backend reports, in order; on a wallet whose first account is a true
    value it changes nothing, whatever the backend reports.  So once a first
    [refresh] has loaded an account, a later [refresh] never adds the
    accounts that the backend reports since. *)
Theorem wallet_refresh (truthy : Account -> bool) (w : Wallet)
    (reported : list Account) :
  (accounts w = [] -> accounts (refresh truthy w reported) = reported) /\
  (forall a rest, accounts w = a :: rest -> truthy a = true ->
     refresh truthy w reported = w) /\
  (forall later, (forall a, truthy a = true) ->
     accounts w = [] -> reported <> [] ->
     refresh truthy (refresh truthy w reported) later =
     refresh truthy w reported).
Proof.
  assert (H1 : accounts w = [] ->
               accounts (refresh truthy w reported) = reported).
  { intros E. unfold refresh. cbn [accounts]. rewrite E.
    apply (refresh_loop_at_end truthy reported []). }
  assert (H2 : forall w0 rep a rest, accounts w0 = a :: rest ->
               truthy a = true -> refresh truthy w0 rep = w0).
  { intros w0 rep a rest E Ht. unfold refresh.
    rewrite (refresh_loop_stuck truthy rep (accounts w0) 0 a);
      [now destruct w0 | now rewrite E | exact Ht]. }
  split; [exact H1|]. split; [apply H2|].
  intros later Ht Ew Hr.
  destruct reported as [|a rest]; [congruence|].
  apply (H2 _ later a rest); [now apply H1 | apply Ht].
Qed.

Lemma wallet_refresh_witness :
  refresh (fun _ => true) sample_wallet
    [ {| account_addresses := [sample_master] |};
      {| account_addresses := [] |};
      {| account_addresses := [sample_master; sample_master] |} ] =
  sample_wallet.
Proof.
  apply (proj1 (proj2 (wallet_refresh (fun _ => true) sample_wallet
           [ {| account_addresses := [sample_master] |};
             {| account_addresses := [] |};
             {| account_addresses := [sample_master; sample_master] |} ]))
           {| account_addresses := [sample_master] |} []);
    reflexivity.
Defined.

(** A wallet without accounts takes the three accounts of the report; a
    second report with a fourth account adds nothing. *)
Example wallet_refresh_twice :
  let empty := {| accounts := []; backend_view_key := sample_view_key |} in
  let first :=
    [ {| account_addresses := [sample_master] |};
      {| account_addresses := [] |};
      {| account_addresses := [sample_master; sample_master] |} ] in
  accounts (refresh (fun _ => true) empty first) = first /\
  accounts (refresh (fun _ => true) (refresh (fun _ => true) empty first)
              (first ++ [ {| account_addresses := [] |} ])) = first.
Proof. split; reflexivity. Qed.

(** ** The spend key of a view-only wallet *)

Lemma lstrip0_all_zeros (s : string) :
  all_zeros (lstrip0 s) = all_zeros s.
Proof.
  induction s as [|c r IH]; [reflexivity|].
  cbn [lstrip0 all_zeros]. destruct (is_zero_char c) eqn:Hc.
  - exact IH.
  - cbn [all_zeros]. now rewrite Hc.
Qed.

Lemma rstrip0_empty (s : string) :
  rstrip0 s = EmptyString <-> all_zeros s = true.
Proof.
  induction s as [|c r IH]; [split; reflexivity|].
  cbn [rstrip0 all_zeros].
  destruct (rstrip0 r) as [|c' r'] eqn:Hr.
  - destruct (is_zero_char c); cbn [andb].
    + split; intros _; [now apply IH | reflexivity].
    + split; discriminate.
  - split; [discriminate|]. intros H. apply andb_prop in H.
    destruct H as [_ H]. apply IH in H. discriminate.
Qed.

(** X11: [spend_key] is [None] exactly when the key of the backend is made
    of zeros only (the empty key included); any other key is returned as it
    is, its own leading and trailing zeros kept. *)
Theorem spend_key_view_only (backend_key : string) :
  (spend_key backend_key = None <-> all_zeros backend_key = true) /\
  (all_zeros backend_key = false -> spend_key backend_key = Some backend_key).
Proof.
  assert (H : String.eqb (strip0 backend_key) EmptyString =
              all_zeros backend_key).
  { unfold strip0. rewrite <- (lstrip0_all_zeros backend_key).
    destruct (String.eqb_spec (rstrip0 (lstrip0 backend_key)) EmptyString)
      as [E|E].
    - symmetry. now apply rstrip0_empty.
    - destruct (all_zeros (lstrip0 backend_key)) eqn:Hz; [|reflexivity].
      apply rstrip0_empty in Hz. congruence. }
  unfold spend_key. rewrite H.
  destruct (all_zeros backend_key); split; try split; congruence.
Qed.

Lemma spend_key_view_only_witness :
  spend_key "0100" = Some "0100"%string.
Proof.
  apply (proj2 (spend_key_view_only "0100")). reflexivity.
Defined.

(** ** Confirmations *)

(** X12: the number of confirmations is never negative; it is 0 for a
    transaction that has no height or a height not below that of the wallet,
    and the difference of the heights otherwise; a payment has the
    confirmations of its transaction. *)
Theorem confirmations_bounds (wallet_height : Z) (h : option Z) :
  0 <= confirmations wallet_height (ATransaction h) /\
  confirmations wallet_height (APayment h) =
    confirmations wallet_height (ATransaction h) /\
  (confirmations wallet_height (ATransaction h) = 0 <->
   h = None \/ exists th, h = Some th /\ wallet_height <= th) /\
  (forall th, h = Some th -> th <= wallet_height ->
     confirmations wallet_height (ATransaction h) = wallet_height - th).
Proof.
  unfold confirmations. split; [|split; [reflexivity|split]].
  - destruct h; lia.
  - destruct h as [th|]; split.
    + intros H. right. exists th. split; [reflexivity | lia].
    + intros [H|[th' [H Hle]]]; [discriminate|]. inversion H; subst. lia.
    + auto.
    + reflexivity.
  - intros th -> Hle. lia.
Qed.

Lemma confirmations_bounds_witness :
  confirmations 120 (ATransaction (Some 100)) = 120 - 100.
Proof.
  apply (proj2 (proj2 (proj2 (confirmations_bounds 120 (Some 100)))) 100);
    [reflexivity | lia].
Defined.


(** ** The master address *)

Lemma format_x_master_netbyte (net : string) :
  format_x (master_netbyte net) = hexlify [byte_of_Z (master_netbyte net)].
Proof.
  unfold master_netbyte.
  destruct (String.eqb net "mainnet"); [reflexivity|].
  destruct (String.eqb net "testnet"); reflexivity.
Qed.

Lemma substring_hexlify (k : nat) (d : bytes) :
  substring 0 (2 * k) (hexlify d) = hexlify (firstn k d).
Proof.
  revert d. induction k as [|k IH]; intros d.
  - destruct d; reflexivity.
  - destruct d as [|b r]; [reflexivity|].
    replace (2 * S k)%nat with (S (S (2 * k))) by lia.
    cbn [hexlify substring firstn]. now rewrite IH.
Qed.

Lemma address_payload_bytes (netbyte : Z) (P V : bytes) :
  format_x netbyte = hexlify [byte_of_Z netbyte] ->
  address_payload netbyte (hexlify P) (hexlify V) =
  Ok (hexlify (([byte_of_Z netbyte] ++ P ++ V) ++
               firstn 4 (keccak_256 ([byte_of_Z netbyte] ++ P ++ V)))).
Proof.
  intros Hf. unfold address_payload. rewrite Hf, <- !hexlify_app.
  rewrite unhexlify_hexlify. cbn [bind].
  change 8%nat with (2 * 4)%nat. rewrite substring_hexlify.
  now rewrite <- hexlify_app.
Qed.

Lemma public_from_secret_sc_reduce {C : Curve} (x : bytes) :
  public_from_secret_hex (sc_reduce x) =
  Ok (hexlify (encodepoint
                 (scalarmult B (ed25519.decodeint (reduce_bytes x))))).
Proof.
  unfold public_from_secret_hex. now rewrite unhexlify_sc_reduce.
Qed.

Lemma secret_key_is_reduced (s : Seed) (k : string) :
  secret_spend_key s = Ok k \/ secret_view_key s = Ok k ->
  exists x, k = sc_reduce x.
Proof.
  rewrite secret_spend_key_value, secret_view_key_value. unfold fmap.
  intros [Hk|Hk]; apply bind_ok in Hk; destruct Hk as [e [_ Hk]];
    inversion Hk; eauto.
Qed.

(** X13: [public_address] with a net other than mainnet, testnet and
    stagenet raises before any key is computed, the cache left as it was.
    With one of the three, for a seed whose secret keys exist and an empty
    cache, the text encoded is that of the network byte (18, 53 or 24), the
    two public keys and the first four bytes of the Keccak-256 hash of the
    bytes before them, and both public keys are in the cache afterwards. *)
Theorem public_address_payload {C : Curve} {E : Base58}
    (s : Seed) (net : string) :
  (valid_net net = false ->
   forall c, exists msg,
     public_address s c net = (Err (ValueError msg), c)) /\
  (valid_net net = true ->
   forall ssk svk,
     secret_spend_key s = Ok ssk -> secret_view_key s = Ok svk ->
     exists bs bv,
       unhexlify ssk = Ok bs /\ unhexlify svk = Ok bv /\
       let P := encodepoint (scalarmult B (ed25519.decodeint bs)) in
       let V := encodepoint (scalarmult B (ed25519.decodeint bv)) in
       let data := [byte_of_Z (master_netbyte net)] ++ P ++ V in
       public_address s empty_cache net =
       (Ok (base58_encode
              (hexlify (data ++ firstn 4 (keccak_256 data)))),
        {| _ed_pub_spend_key := Some (hexlify P);
           _ed_pub_view_key := Some (hexlify V) |})).
Proof.
  split.
  - intros Hn c. unfold public_address. rewrite Hn. cbn [negb]. eauto.
  - intros Hn ssk svk Hs Hv.
    destruct (secret_key_is_reduced s ssk (or_introl Hs)) as [x ->].
    destruct (secret_key_is_reduced s svk (or_intror Hv)) as [y ->].
    exists (reduce_bytes x), (reduce_bytes y).
    split; [apply unhexlify_sc_reduce|].
    split; [apply unhexlify_sc_reduce|].
    cbv zeta. unfold public_address. rewrite Hn. cbn [negb].
    unfold public_spend_key, public_view_key, empty_cache.
    cbn [cached _ed_pub_spend_key _ed_pub_view_key].
    rewrite Hs. cbn [bind]. rewrite public_from_secret_sc_reduce.
    cbv beta iota. cbn [_ed_pub_spend_key _ed_pub_view_key cached].
    rewrite Hv. cbn [bind]. rewrite public_from_secret_sc_reduce.
    cbv beta iota.
    rewrite address_payload_bytes by apply format_x_master_netbyte.
    reflexivity.
Qed.

Lemma public_address_payload_witness :
  exists msg,
    @public_address sample_curve sample_base58
      (seed_of_hex "000102030405060708090a0b0c0d0e0f") empty_cache "regtest" =
    (Err (ValueError msg), empty_cache).
Proof.
  apply (proj1 (@public_address_payload sample_curve sample_base58
                  (seed_of_hex "000102030405060708090a0b0c0d0e0f")
                  "regtest")).
  reflexivity.
Defined.

Example public_address_mainnet :
  fst (@public_address sample_curve sample_base58
         (seed_of_hex "000102030405060708090a0b0c0d0e0f") empty_cache
         "mainnet") =
  Ok "120b17585249f228afc549b5ee67823d4ebfc62961bfeb10c1f79c756f7294b0032e8616c7e1e469de319b925fd673bfbcc1b58f5ec82f23ec0cf39c614b45370840421570"%string.
Proof. vm_compute. reflexivity. Qed.

(** ** The cache of public keys *)

Lemma cached_some (o : option string) (k : string) :
  cached o = Some k -> o = Some k /\ cached (Some k) = Some k.
Proof.
  destruct o as [[|c r]|]; try discriminate.
  intros H. inversion H; subst. auto.
Qed.

(** X14: a public key that is in the cache is returned without a look at
    the seed, even when the seed has no secret key.  A call of
    [public_spend_key] leaves the view key of the cache alone, and a second
    call returns what the first returned and changes the cache no more. *)
Theorem public_spend_key_memo {C : Curve} (s : Seed) (c : KeyCache) :
  (forall k, cached (_ed_pub_spend_key c) = Some k ->
     forall s', public_spend_key s' c = (Ok k, c)) /\
  _ed_pub_view_key (snd (public_spend_key s c)) = _ed_pub_view_key c /\
  public_spend_key s (snd (public_spend_key s c)) =
    (fst (public_spend_key s c), snd (public_spend_key s c)).
Proof.
  split; [|split].
  - intros k Hk s'. unfold public_spend_key. now rewrite Hk.
  - unfold public_spend_key.
    destruct (cached (_ed_pub_spend_key c)); [reflexivity|].
    destruct (sk <- secret_spend_key s ;; public_from_secret_hex sk);
      reflexivity.
  - unfold public_spend_key at 2 3 4.
    destruct (cached (_ed_pub_spend_key c)) as [k|] eqn:Hc.
    + cbn [fst snd]. unfold public_spend_key. now rewrite Hc.
    + destruct (sk <- secret_spend_key s ;; public_from_secret_hex sk)
        as [k|e] eqn:Hk; cbn [fst snd].
      * unfold public_spend_key. cbn [_ed_pub_spend_key _ed_pub_view_key].
        destruct k as [|ch r]; cbn [cached].
        -- rewrite Hk. reflexivity.
        -- reflexivity.
      * unfold public_spend_key. now rewrite Hc, Hk.
Qed.

Lemma public_spend_key_memo_witness :
  @public_spend_key sample_curve (seed_of_hex "zz")
    {| _ed_pub_spend_key := Some "0b17"%string; _ed_pub_view_key := None |} =
  (Ok "0b17"%string,
   {| _ed_pub_spend_key := Some "0b17"%string; _ed_pub_view_key := None |}).
Proof.
  apply (proj1 (@public_spend_key_memo sample_curve (seed_of_hex "zz")
                  {| _ed_pub_spend_key := Some "0b17"%string;
                     _ed_pub_view_key := None |}) "0b17"%string).
  reflexivity.
Defined.

(** ** The classes of exceptions *)

(** X15: every exception of the package is a [uPlexaException]; the
    exceptions of the backend and those of an account are two families with
    no class in both; [NotEnoughUnlockedMoney] is caught as
    [NotEnoughMoney], and [issubclass] is an order: a class is below itself,
    and two classes below each other are the same. *)
Theorem exception_hierarchy :
  (forall c, c <> Exception -> issubclass c uPlexaException = true) /\
  (forall c, issubclass c BackendException &&
             issubclass c AccountException = false) /\
  (forall c, issubclass c NotEnoughMoney = true <->
             c = NotEnoughMoney \/ c = NotEnoughUnlockedMoney) /\
  (forall c, issubclass c c = true) /\
  (forall c d, issubclass c d = true -> issubclass d c = true -> c = d) /\
  (forall c d e, issubclass c d = true -> issubclass d e = true ->
                 issubclass c e = true).
Proof.
  split; [|split; [|split; [|split; [|split]]]].
  - intros c Hc. destruct c; try reflexivity. congruence.
  - intros c. destruct c; reflexivity.
  - intros c. split.
    + destruct c; intros H; try discriminate H; auto.
    + intros [-> | ->]; reflexivity.
  - intros c. destruct c; reflexivity.
  - intros c d. destruct c, d; intros H1 H2;
      try reflexivity; try discriminate H1; discriminate H2.
  - intros c d e. destruct c, d; intros H1; try discriminate H1;
      destruct e; intros H2; try discriminate H2; reflexivity.
Qed.

Lemma exception_hierarchy_witness :
  issubclass TransactionBroadcastError uPlexaException = true.
Proof.
  apply (proj1 exception_hierarchy TransactionBroadcastError). discriminate.
Defined.

(** ** Destination pairs *)

Lemma split_on_not_nil (sep : ascii) (s : string) : split_on sep s <> [].
Proof.
  destruct s as [|c r]; simpl; [discriminate|].
  destruct (Ascii.eqb c sep); [discriminate|].
  destruct (split_on sep r); discriminate.
Qed.

Lemma split_on_one (sep : ascii) (s m : string) :
  split_on sep s = [m] <-> s = m /\ has_char sep m = false.
Proof.
  revert m. induction s as [|c r IH]; intros m.
  - simpl. split.
    + intros H. inversion H. auto.
    + intros [<- _]. reflexivity.
  - cbn [split_on]. destruct (Ascii.eqb c sep) eqn:Hc.
    + split.
      * intros H. inversion H as [[H1 H2]].
        now apply split_on_not_nil in H2.
      * intros [<- H]. cbn [has_char] in H. rewrite Hc in H. discriminate.
    + pose proof (split_on_not_nil sep r) as Hn.
      destruct (split_on sep r) as [|w ws] eqn:Hs; [congruence|]. split.
      * intros H. inversion H; subst.
        destruct (proj1 (IH w) eq_refl) as [-> Hw].
        cbn [has_char]. now rewrite Hc.
      * intros [<- H]. cbn [has_char] in H. rewrite Hc in H.
        cbn [orb] in H. pose proof (proj2 (IH r) (conj eq_refl H)) as E.
        inversion E. reflexivity.
Qed.

Lemma split_on_two (sep : ascii) (s a m : string) :
  split_on sep s = [a; m] <->
  s = (a ++ String sep m)%string /\
  has_char sep a = false /\ has_char sep m = false.
Proof.
  revert a. induction s as [|c r IH]; intros a.
  - simpl. split; [discriminate|]. intros [H _].
    destruct a; discriminate H.
  - cbn [split_on]. destruct (Ascii.eqb c sep) eqn:Hc.
    + apply Ascii.eqb_eq in Hc. subst c. split.
      * intros H. inversion H as [[H1 H2]]. apply split_on_one in H2.
        destruct H2 as [-> Hm]. auto.
      * intros [H [Ha Hm]]. destruct a as [|x a'].
        -- cbn in H. inversion H; subst.
           now rewrite (proj2 (split_on_one sep m m) (conj eq_refl Hm)).
        -- cbn in H. inversion H; subst. cbn [has_char] in Ha.
           rewrite Ascii.eqb_refl in Ha. discriminate.
    + pose proof (split_on_not_nil sep r) as Hn.
      destruct (split_on sep r) as [|w ws] eqn:Hs; [congruence|]. split.
      * intros H. inversion H; subst.
        destruct (proj1 (IH w) eq_refl) as [-> [Hw Hm]].
        cbn [has_char String.append]. rewrite Hc. auto.
      * intros [H [Ha Hm]]. destruct a as [|x a'].
        -- cbn in H. inversion H; subst. rewrite Ascii.eqb_refl in Hc.
           discriminate.
        -- cbn in H. inversion H; subst. cbn [has_char] in Ha.
           rewrite Hc in Ha. cbn [orb] in Ha.
           pose proof (proj2 (IH a') (conj eq_refl (conj Ha Hm))) as E.
           inversion E. reflexivity.
Qed.

(** X16: the argument of [destpair] splits into an address and an amount
    exactly when it is an address without colon, a colon and an amount
    without colon; with no colon or more than one the unpacking raises
    [ValueError] and neither the address nor the amount is parsed. *)
Theorem destpair_one_colon {A D : Type} (address_of : string -> res A)
    (as_uplexa : string -> res D) (s : string) :
  (forall a m, destpair_parts s = Ok (a, m) <->
     s = (a ++ ":" ++ m)%string /\
     has_char ":" a = false /\ has_char ":" m = false) /\
  (forall x y, destpair address_of as_uplexa s = Ok (x, y) ->
     exists a m, s = (a ++ ":" ++ m)%string /\
                 address_of a = Ok x /\ as_uplexa m = Ok y) /\
  (is_ok (destpair_parts s) = false ->
     exists msg, destpair address_of as_uplexa s = Err (ValueError msg)).
Proof.
  assert (H1 : forall a m, destpair_parts s = Ok (a, m) <->
     s = (a ++ ":" ++ m)%string /\
     has_char ":" a = false /\ has_char ":" m = false).
  { intros a m. change (":" ++ m)%string with (String ":"%char m).
    rewrite <- split_on_two. unfold destpair_parts.
    destruct (split_on ":" s) as [|u [|v [|t r]]]; split; intros H;
      try discriminate H; inversion H; reflexivity. }
  split; [exact H1|]. split.
  - intros x y H. unfold destpair in H. apply bind_ok in H.
    destruct H as [[a m] [Hp H]]. cbn [fst snd] in H.
    apply bind_ok in H. destruct H as [x' [Hx H]].
    apply bind_ok in H. destruct H as [y' [Hy H]]. inversion H; subst.
    exists a, m. split; [now apply H1 | auto].
  - unfold destpair, destpair_parts.
    destruct (split_on ":" s) as [|u [|v [|t r]]]; cbn [bind is_ok];
      intros H; try discriminate H; eauto.
Qed.

Lemma destpair_one_colon_witness :
  exists msg,
    destpair (fun a => Ok a) (fun m => Ok m) "UPX1abc:1.5:2" =
    Err (ValueError msg).
Proof.
  apply (proj2 (proj2 (destpair_one_colon (fun a => Ok a) (fun m => Ok m)
                         "UPX1abc:1.5:2"))).
  reflexivity.
Defined.
